(** * improve_quick5: the quick5 table rewriter of ibus-table-chinese

    A shallow embedding of [tables/quick/improve_quick5.py] and the
    properties of its read / normalize / write pipeline.

    Modelling choices.
    - A Python [str] is a list of Unicode code points ([N]).
    - The input file is the list of lines that iterating the file object
      yields; the output file is the list of strings handed to [write],
      in order (its content is their concatenation).  How text mode cuts
      the text of a file into these lines is [readlines], what it makes
      of the strings written is [write_text]; encodings are left out.
    - The [table] dict keeps insertion order, which the loop at line 126
      follows, so it is an association list whose keys are looked up by
      first match and inserted at the end.
    - Exceptions are explicit: a small error monad for the phases, and an
      [outcome] that records whether the output file was opened.
    - The builtin [int] is a parameter [py_int] of the pipeline; the
      properties hold for every such function.
    - Logging has no effect on the data and is left out.  The optional
      [chinese_variants] diagnostics are kept as far as they can raise. *)

From Stdlib Require Import String Ascii DecimalString.
From Stdlib Require DecimalPos.
From Stdlib Require Import List ZArith NArith Lia Bool Sorted Permutation.
Import ListNotations.

Local Open Scope Z_scope.

(** ** Python strings *)

Module Py.

Definition char : Type := N.
Definition str : Type := list char.

Definition str_eq_dec : forall a b : str, {a = b} + {a <> b} :=
  list_eq_dec N.eq_dec.

(** A literal of the source, given as an ASCII string. *)
Definition lit (s : string) : str :=
  map N_of_ascii (list_ascii_of_string s).

(** [s.startswith(prefix)] *)
Fixpoint startswith (s prefix : str) : bool :=
  match prefix, s with
  | [], _ => true
  | _ :: _, [] => false
  | p :: prefix', c :: s' => N.eqb c p && startswith s' prefix'
  end.

(** The code points for which [str.isspace] holds, the ones [strip]
    removes: U+0009..U+000D, U+001C..U+0020, U+0085, U+00A0, U+1680,
    U+2000..U+200A, U+2028, U+2029, U+202F, U+205F, U+3000. *)
Definition isspace (c : char) : bool :=
  ((9 <=? c) && (c <=? 13) || (28 <=? c) && (c <=? 32)
   || (c =? 133) || (c =? 160) || (c =? 5760)
   || (8192 <=? c) && (c <=? 8202)
   || (c =? 8232) || (c =? 8233) || (c =? 8239) || (c =? 8287)
   || (c =? 12288))%N.

Fixpoint lstrip (s : str) : str :=
  match s with
  | [] => []
  | c :: s' => if isspace c then lstrip s' else s
  end.

Definition rstrip (s : str) : str := rev (lstrip (rev s)).

(** [s.strip()] *)
Definition strip (s : str) : str := rstrip (lstrip s).

(** [s.split(sep)] for a one-character separator: never the empty list. *)
Fixpoint split (sep : char) (s : str) : list str :=
  match s with
  | [] => [[]]
  | c :: s' =>
      if N.eqb c sep then [] :: split sep s'
      else match split sep s' with
           | [] => [[c]]
           | f :: fs => (c :: f) :: fs
           end
  end.

(** ['%s' % n] for an [int]. *)
Definition str_of_int (n : Z) : str :=
  lit (NilEmpty.string_of_int (Z.to_int n)).

Definition TAB : char := 9%N.
Definition NL : char := 10%N.

End Py.
Import Py.

(** ** Exceptions *)

Inductive exn : Type :=
| ValueError          (* unpacking a wrong number of fields, [int] of a non-number *)
| TypeError           (* [unicodedata.name] or [ord] of a string that is not one character *)
| UnboundLocalError   (* reading a local variable that was never assigned *)
| LookupFailed.       (* an exception out of the [chinese_variants] diagnostics *)

Inductive result (A : Type) : Type :=
| Ok (a : A)
| Raise (e : exn).
Arguments Ok {A} a.
Arguments Raise {A} e.

Definition bind {A B : Type} (m : result A) (k : A -> result B) : result B :=
  match m with
  | Ok a => k a
  | Raise e => Raise e
  end.

Notation "x <- m ;; k" := (bind m (fun x => k))
  (at level 61, m at next level, right associativity).
Notation "' p <- m ;; k" := (bind m (fun x => let p := x in k))
  (at level 61, p pattern, m at next level, right associativity).

(** ** The record store (the [table] dict) *)

Record value : Type := { weight : Z; comment : str }.

(** A key is the pair [(input, chinese_character)]. *)
Definition key : Type := (str * str)%type.
Definition item : Type := (key * value)%type.
Definition table : Type := list item.

Definition key_eq_dec : forall a b : key, {a = b} + {a <> b}.
Proof. decide equality; apply str_eq_dec. Defined.

Definition keys (t : table) : list key := map fst t.

(** [table[k]], with [None] where Python raises [KeyError]. *)
Fixpoint lookup (k : key) (t : table) : option value :=
  match t with
  | [] => None
  | (k', v) :: t' => if key_eq_dec k k' then Some v else lookup k t'
  end.

(** [k in table] *)
Definition mem (k : key) (t : table) : bool :=
  match lookup k t with Some _ => true | None => false end.

(** [table[k]['weight'] = w]: the inner dict is updated in place, its
    comment and its position stay. *)
Fixpoint set_weight (k : key) (w : Z) (t : table) : table :=
  match t with
  | [] => []
  | (k', v) :: t' =>
      if key_eq_dec k k'
      then (k', {| weight := w; comment := comment v |}) :: t'
      else (k', v) :: set_weight k w t'
  end.

(** [table[k] = v]: a new key goes to the end, an old one keeps its place. *)
Fixpoint setitem (k : key) (v : value) (t : table) : table :=
  match t with
  | [] => [(k, v)]
  | (k', v') :: t' =>
      if key_eq_dec k k' then (k', v) :: t' else (k', v') :: setitem k v t'
  end.

(** ** The environment of a run *)

(** What the run depends on besides the input file: whether
    [import chinese_variants] succeeded, and whether the diagnostics of
    lines 143-161 ([detect_chinese_category], [urlopen]) raise when the
    loop visits a key.  Each key is visited once. *)
Record Env : Type := {
  IMPORT_CHINESE_VARIANTS_SUCCESSFUL : bool;
  variants_lookup_raises : key -> bool
}.

(** ** Concrete inputs to run the model on *)

(** An instance of [py_int] to run the model with: [int] on ASCII decimal
    numerals, with surrounding whitespace, a sign, and single underscores
    between digits. *)
Definition digit (c : char) : option Z :=
  if ((48 <=? c) && (c <=? 57))%N then Some (Z.of_N (c - 48)) else None.

Fixpoint digits (acc : Z) (after_digit : bool) (s : str) : option Z :=
  match s with
  | [] => if after_digit then Some acc else None
  | c :: s' =>
      if (c =? 95)%N then (if after_digit then digits acc false s' else None)
      else match digit c with
           | Some d => digits (10 * acc + d) true s'
           | None => None
           end
  end.

Definition int_ascii (s : str) : option Z :=
  match strip s with
  | 45%N :: s' => option_map Z.opp (digits 0 false s')
  | 43%N :: s' => digits 0 false s'
  | s' => digits 0 false s'
  end.

(** The two kinds of environment: [chinese_variants] missing, and
    [chinese_variants] present with lookups that do not raise. *)
Definition env_plain : Env :=
  {| IMPORT_CHINESE_VARIANTS_SUCCESSFUL := false;
     variants_lookup_raises := fun _ => false |}.

Definition env_variants : Env :=
  {| IMPORT_CHINESE_VARIANTS_SUCCESSFUL := true;
     variants_lookup_raises := fun _ => false |}.

(** A table line [input TAB character TAB weight NL]. *)
Definition row (input : string) (c : N) (w : string) : str :=
  lit input ++ [TAB] ++ [c] ++ [TAB] ++ lit w ++ [NL].

Definition ln (s : string) : str := lit s ++ [NL].

Definition zhong : N := 20013.  (* U+4E2D *)
Definition zi : N := 23383.     (* U+5B57 *)
Definition jie : N := 33410.    (* U+8282 *)

(** A file with a header line, a table region with a duplicate, and a
    trailer. *)
Definition sample_pre : list str := [ln "### header"].
Definition sample_begin : str := ln "BEGIN_TABLE".
Definition sample_region : list str :=
  [ row "x" zhong "1000"; row "a" zhong "1000"; row "ab" zi "500";
    row "q" jie "800"; row "q" jie "1000" ].
Definition sample_post : list str := [ln "END_TABLE"; ln "trailer"].

Definition sample : list str :=
  sample_pre ++ sample_begin :: sample_region ++ sample_post.

(** The same file with a weight that is not a number in its region. *)
Definition sample_bad_line : str := row "b" zi "heavy".

Definition sample_bad : list str :=
  sample_pre ++ sample_begin :: sample_region ++ sample_bad_line :: sample_post.

(** A small store: an [x] spelling and a one-letter spelling of one
    character, and a two-letter spelling of another. *)
Definition sample_table : table :=
  [ ((lit "x", [zhong]), {| weight := 1000; comment := [] |});
    ((lit "a", [zhong]), {| weight := 1000; comment := [] |});
    ((lit "ab", [zi]), {| weight := 500; comment := lit "note" |}) ].

Definition sample_table_normalized : table :=
  [ ((lit "x", [zhong]), {| weight := 1000; comment := [] |});
    ((lit "a", [zhong]), {| weight := 900; comment := [] |});
    ((lit "ab", [zi]), {| weight := 500; comment := lit "note" |}) ].

(** ** The Big5 helper (lines 66-77) *)

(** Python [bytes] are lists of numbers below 256; they compare like
    strings, byte by byte, a proper prefix first. *)
Definition bytes : Type := list N.

(** [big5_code]: the Big5 encoding of the phrase, or [b'\xff\xff'] where
    [phrase.encode('Big5')] raises [UnicodeEncodeError].  The codec is a
    parameter: [None] stands for the exception. *)
Definition big5_code (encode_big5 : str -> option bytes) (phrase : str)
  : bytes :=
  match encode_big5 phrase with
  | Some big5 => big5
  | None => [255%N; 255%N]
  end.

(** A codec to run [big5_code] with: Big5 on ASCII text, where it is the
    identity, and an error elsewhere. *)
Definition encode_ascii (phrase : str) : option bytes :=
  if forallb (fun c => (c <? 128)%N) phrase then Some phrase else None.


(** The region of a file without duplicate keys, and the same lines in
    another order. *)
Definition sample_region_plain : list str :=
  [ row "x" zhong "1000"; row "a" zhong "1000"; row "ab" zi "500" ].

Definition sample_region_moved : list str :=
  [ row "ab" zi "500"; row "x" zhong "1000"; row "a" zhong "1000" ].

(** Other lines around the sample region: no header, text after the begin
    marker, no end marker. *)
Definition sample_begin_other : str := ln "BEGIN_TABLE of quick5".


(** ** Text-mode files (lines 89 and 174) *)

Definition CR : char := 13%N.

(** Reading: [open(inputfilename, 'r')] is in universal-newlines mode.
    Iterating the file cuts its text after every ['\n'], ['\r\n'] and
    lone ['\r'], and each of them is handed over as ['\n']; a last line
    without line ending comes as it is.  [cur] is the line read so far,
    reversed. *)
Fixpoint readlines_from (cur : str) (text : str) {struct text} : list str :=
  match text with
  | [] =>
      match cur with
      | [] => []
      | _ :: _ => [rev cur]
      end
  | c :: rest =>
      if N.eqb c NL then rev (NL :: cur) :: readlines_from [] rest
      else if N.eqb c CR then
        match rest with
        | [] => [rev (NL :: cur)]
        | c' :: rest' =>
            if N.eqb c' NL then rev (NL :: cur) :: readlines_from [] rest'
            else rev (NL :: cur) :: readlines_from [] rest
        end
      else readlines_from (c :: cur) rest
  end.

Definition readlines (text : str) : list str := readlines_from [] text.

(** Writing: [open(outputfilename, 'w')] turns every ['\n'] written into
    [os.linesep]; the text of the file is that of the strings written,
    one after the other. *)
Definition write_text (linesep : str) (written : list str) : str :=
  flat_map (fun c => if N.eqb c NL then linesep else [c]) (concat written).

(** [os.linesep] on POSIX. *)
Definition posix_linesep : str := [NL].

(** A file with CRLF line endings and an empty table. *)
Definition crlf_header_line : str := lit "### header" ++ [CR; NL].

Definition crlf_file : str :=
  crlf_header_line ++ lit "BEGIN_TABLE" ++ [CR; NL]
    ++ lit "END_TABLE" ++ [CR; NL].

(** The sample file as text, with LF line endings. *)
Definition sample_text : str := concat sample.

(** [chinese_variants] present, with lookups that raise. *)
Definition env_lookup_fails : Env :=
  {| IMPORT_CHINESE_VARIANTS_SUCCESSFUL := true;
     variants_lookup_raises := fun _ => true |}.


Section Pipeline.

(** The builtin [int] on a [str]: [None] where it raises [ValueError]. *)
Variable py_int : str -> option Z.

Variable env : Env.

Definition int_of (s : str) : result Z :=
  match py_int s with
  | Some z => Ok z
  | None => Raise ValueError
  end.

(** ** Table reader (lines 83-125) *)

Definition BEGIN_TABLE : str := Eval cbv in lit "BEGIN_TABLE".
Definition END_TABLE : str := Eval cbv in lit "END_TABLE".
Definition BEGIN_TABLE_line : str := BEGIN_TABLE ++ [NL].

Record reader : Type := {
  head : list str;
  tail : list str;
  tbl : table;
  reading_head : bool;
  reading_table : bool
}.

Definition reader_init : reader :=
  {| head := []; tail := []; tbl := [];
     reading_head := true; reading_table := true |}.

(** Lines 101-107: strip, split on tabs, pad to four fields, unpack. *)
Definition fields (line : str) : result (str * str * str * str) :=
  let stripped_line := split TAB (strip line) in
  let stripped_line :=
    if (length stripped_line <? 4)%nat
    then stripped_line ++ [[]] else stripped_line in
  match stripped_line with
  | [input; chinese_character; weight_field; comment_field] =>
      Ok (input, chinese_character, weight_field, comment_field)
  | _ => Raise ValueError
  end.

(** Lines 101-121: one line of the table region. *)
Definition read_table_line (t : table) (line : str) : result table :=
  ' (input, chinese_character, weight_field, comment_field) <- fields line ;;
  let k := (input, chinese_character) in
  match lookup k t with
  | Some first =>
      w <- int_of weight_field ;;
      Ok (set_weight k (Z.max w (weight first)) t)
  | None =>
      w <- int_of weight_field ;;
      Ok (setitem k {| weight := w; comment := comment_field |} t)
  end.

(** Lines 92-125: the body of the [for line in inputfile] loop. *)
Definition read_line (st : reader) (line : str) : result reader :=
  if reading_head st && negb (startswith line BEGIN_TABLE) then
    Ok {| head := head st ++ [line]; tail := tail st; tbl := tbl st;
          reading_head := reading_head st;
          reading_table := reading_table st |}
  else if reading_head st then
    Ok {| head := head st ++ [BEGIN_TABLE_line]; tail := tail st;
          tbl := tbl st;
          reading_head := false; reading_table := reading_table st |}
  else if reading_table st && negb (startswith line END_TABLE) then
    t <- read_table_line (tbl st) line ;;
    Ok {| head := head st; tail := tail st; tbl := t;
          reading_head := reading_head st;
          reading_table := reading_table st |}
  else
    Ok {| head := head st; tail := tail st ++ [line]; tbl := tbl st;
          reading_head := reading_head st; reading_table := false |}.

Fixpoint read_lines (st : reader) (lines : list str) : result reader :=
  match lines with
  | [] => Ok st
  | line :: rest => st' <- read_line st line ;; read_lines st' rest
  end.

(** ** Variant normalizer (lines 126-169) *)

Definition valid_input_chars_without_x : str :=
  Eval cbv in lit "abcdefghijklmnopqrstuvwyz".

Definition x_prefix : str := Eval cbv in lit "x".

(** Lines 165-166 and 168-169: [if k in table: table[k]['weight'] = 900]. *)
Definition demote (t : table) (k : key) : table :=
  if mem k t then set_weight k 900 t else t.

(** Lines 164-169: the two nested loops over the alphabet. *)
Definition rewrite_variants (chinese_character : str) (t : table) : table :=
  fold_left
    (fun t input1 =>
       let t := demote t ([input1], chinese_character) in
       fold_left
         (fun t input2 => demote t ([input1] ++ [input2], chinese_character))
         valid_input_chars_without_x t)
    valid_input_chars_without_x t.

(** [unicodedata.name(c, '')] accepts one character only.  Its value is
    used for the log of lines 128-141 alone; for a character named
    CJK COMPATIBILITY IDEOGRAPH the decomposition is empty or one code
    point in hexadecimal, so nothing raises there. *)
Definition unicodedata_name (c : str) : result unit :=
  match c with
  | [_] => Ok tt
  | _ => Raise TypeError
  end.

(** Lines 142-161, as far as control flow goes. *)
Definition variants_diagnostics (k : key) : result unit :=
  if IMPORT_CHINESE_VARIANTS_SUCCESSFUL env
  then if variants_lookup_raises env k then Raise LookupFailed else Ok tt
  else Ok tt.

(** Lines 127-169: one iteration of [for (input, chinese_character) in table]. *)
Definition visit (t : table) (k : key) : result table :=
  let '(input, chinese_character) := k in
  _ <- unicodedata_name chinese_character ;;
  _ <- variants_diagnostics k ;;
  Ok (if startswith input x_prefix
      then rewrite_variants chinese_character t else t).

Fixpoint visit_all (ks : list key) (t : table) : result table :=
  match ks with
  | [] => Ok t
  | k :: ks' => t' <- visit t k ;; visit_all ks' t'
  end.

(** The loop runs over the keys of the dict; its body changes weights
    only, so the keys it runs over are those at its start. *)
Definition normalize (t : table) : result table := visit_all (keys t) t.

(** Lines 170-173: [number_of_problems_with_chinese_variants] is assigned
    at line 143, inside the loop; with an empty table it is read here
    without ever having been assigned. *)
Definition report_variants (t : table) : result unit :=
  if IMPORT_CHINESE_VARIANTS_SUCCESSFUL env
  then match t with
       | [] => Raise UnboundLocalError
       | _ :: _ => Ok tt
       end
  else Ok tt.

(** ** Table writer (lines 174-192) *)

(** The tuple [(x[0][0], -x[1]['weight'], ord(x[0][1]))]. *)
Definition sort_key : Type := (str * Z * Z)%type.

Definition ord (c : str) : result Z :=
  match c with
  | [x] => Ok (Z.of_N x)
  | _ => Raise TypeError
  end.

Definition sort_key_of (x : item) : result sort_key :=
  o <- ord (snd (fst x)) ;;
  Ok (fst (fst x), - weight (snd x), o).

(** Python compares strings by code point, a proper prefix first. *)
Fixpoint str_compare (a b : str) : comparison :=
  match a, b with
  | [], [] => Eq
  | [], _ :: _ => Lt
  | _ :: _, [] => Gt
  | x :: a', y :: b' =>
      match N.compare x y with
      | Eq => str_compare a' b'
      | c => c
      end
  end.

(** Tuples compare component by component, left to right. *)
Definition sort_key_compare (a b : sort_key) : comparison :=
  let '(i1, w1, o1) := a in
  let '(i2, w2, o2) := b in
  match str_compare i1 i2 with
  | Eq => match Z.compare w1 w2 with
          | Eq => Z.compare o1 o2
          | c => c
          end
  | c => c
  end.

Definition sort_key_le (a b : sort_key) : bool :=
  match sort_key_compare a b with
  | Gt => false
  | _ => true
  end.

(** [sorted] computes every key first, then sorts stably by key. *)
Fixpoint decorate (items : list item) : result (list (sort_key * item)) :=
  match items with
  | [] => Ok []
  | x :: rest =>
      kx <- sort_key_of x ;;
      drest <- decorate rest ;;
      Ok ((kx, x) :: drest)
  end.

Fixpoint insert_by_key (x : sort_key * item) (l : list (sort_key * item))
  : list (sort_key * item) :=
  match l with
  | [] => [x]
  | y :: l' =>
      if sort_key_le (fst x) (fst y) then x :: l
      else y :: insert_by_key x l'
  end.

Fixpoint sort_by_key (l : list (sort_key * item)) : list (sort_key * item) :=
  match l with
  | [] => []
  | x :: l' => insert_by_key x (sort_by_key l')
  end.

Definition sorted (items : list item) : result (list item) :=
  d <- decorate items ;;
  Ok (map snd (sort_by_key d)).

(** Lines 184-190: one line of the table body. *)
Definition format_item (x : item) : str :=
  let '((input, chinese_character), v) := x in
  match comment v with
  | [] =>
      input ++ [TAB] ++ chinese_character ++ [TAB]
        ++ str_of_int (weight v) ++ [NL]
  | _ :: _ =>
      input ++ [TAB] ++ chinese_character ++ [TAB]
        ++ str_of_int (weight v) ++ [TAB] ++ comment v ++ [NL]
  end.

(** ** The whole run *)

(** How a run ends.  [Crashed e None]: an exception before the output
    file was opened.  [Crashed e (Some ws)]: an exception after it was
    opened and [ws] written.  [Finished ws]: the run wrote [ws]. *)
Inductive outcome : Type :=
| Crashed (e : exn) (written : option (list str))
| Finished (written : list str).

Definition improve_quick5 (lines : list str) : outcome :=
  match read_lines reader_init lines with
  | Raise e => Crashed e None
  | Ok st =>
      match normalize (tbl st) with
      | Raise e => Crashed e None
      | Ok t =>
          match report_variants t with
          | Raise e => Crashed e None
          | Ok _ =>
              (* line 174: the output file is opened; the head is written *)
              match sorted t with
              | Raise e => Crashed e (Some (head st))
              | Ok body =>
                  Finished (head st ++ map format_item body ++ tail st)
              end
          end
      end
  end.

(** ** Definitions used to state the properties *)

Definition is_begin (line : str) : bool := startswith line BEGIN_TABLE.
Definition is_end (line : str) : bool := startswith line END_TABLE.

(** What follows the table region: nothing, or lines of which the first
    starts with the end marker. *)
Definition starts_with_end (post : list str) : Prop :=
  match post with
  | [] => True
  | e :: _ => is_end e = true
  end.

(** The lines of the table region, read one after the other. *)
Fixpoint read_table_lines (t : table) (region : list str) : result table :=
  match region with
  | [] => Ok t
  | line :: rest => t' <- read_table_line t line ;; read_table_lines t' rest
  end.

(** A table line as the record it stands for. *)
Definition entry : Type := (key * Z * str)%type.

Definition parse_line (line : str) : result entry :=
  ' (input, chinese_character, weight_field, comment_field) <- fields line ;;
  w <- int_of weight_field ;;
  Ok ((input, chinese_character), w, comment_field).

Fixpoint parse_all (region : list str) : result (list entry) :=
  match region with
  | [] => Ok []
  | line :: rest =>
      e <- parse_line line ;; es <- parse_all rest ;; Ok (e :: es)
  end.

(** The dict update of lines 108-120 on a parsed line. *)
Definition upsert (t : table) (e : entry) : table :=
  let '(k, w, c) := e in
  match lookup k t with
  | Some first => set_weight k (Z.max w (weight first)) t
  | None => setitem k {| weight := w; comment := c |} t
  end.

(** The largest weight among the entries with key [k]. *)
Fixpoint max_weight (k : key) (es : list entry) : option Z :=
  match es with
  | [] => None
  | (k', w, _) :: es' =>
      if key_eq_dec k k'
      then Some (match max_weight k es' with
                 | Some m => Z.max w m
                 | None => w
                 end)
      else max_weight k es'
  end.

(** The comment of the first entry with key [k]. *)
Fixpoint first_comment (k : key) (es : list entry) : option str :=
  match es with
  | [] => None
  | (k', _, c) :: es' =>
      if key_eq_dec k k' then Some c else first_comment k es'
  end.

Definition with_weight (w : Z) (v : value) : value :=
  {| weight := w; comment := comment v |}.

(** [input] is one or two letters of the 25-letter alphabet. *)
Definition in_alphabet (c : char) : bool :=
  existsb (N.eqb c) valid_input_chars_without_x.

Definition is_variant_input (input : str) : bool :=
  match input with
  | [c1] => in_alphabet c1
  | [c1; c2] => in_alphabet c1 && in_alphabet c2
  | _ => false
  end.

(** The same in the words of the specification: length 1 or 2, letters
    of the alphabet only. *)
Definition over_alphabet (input : str) : Prop :=
  (length input = 1%nat \/ length input = 2%nat)
  /\ Forall (fun c => In c valid_input_chars_without_x) input.

(** The keys the nested loops of lines 164-169 test, in order. *)
Definition targets (chinese_character : str) : list key :=
  flat_map
    (fun input1 =>
       ([input1], chinese_character)
       :: map (fun input2 => ([input1] ++ [input2], chinese_character))
            valid_input_chars_without_x)
    valid_input_chars_without_x.

Definition targets_of (k : key) : list key :=
  if startswith (fst k) x_prefix then targets (snd k) else [].

(** What can raise in one iteration of the loop at line 126. *)
Definition check (k : key) : result unit :=
  _ <- unicodedata_name (snd k) ;; variants_diagnostics k.

Fixpoint check_all (ks : list key) : result unit :=
  match ks with
  | [] => Ok tt
  | k :: ks' => _ <- check k ;; check_all ks'
  end.

(** Some record of the table has an input starting with [x] and the
    character [c]. *)
Definition has_x_record (t : table) (c : str) : Prop :=
  exists input, In (input, c) (keys t) /\ startswith input x_prefix = true.

(** The order of the table body, in the words of the specification. *)
Definition str_lt (a b : str) : Prop := str_compare a b = Lt.

Definition item_lt (x y : item) : Prop :=
  let '((ix, cx), vx) := x in
  let '((iy, cy), vy) := y in
  str_lt ix iy
  \/ (ix = iy
      /\ (weight vy < weight vx
          \/ (weight vx = weight vy
              /\ exists px py : N, cx = [px] /\ cy = [py] /\ (px < py)%N))).

Definition sort_key_lt (a b : sort_key) : Prop := sort_key_compare a b = Lt.

(** The order [sorted] sorts by, on items paired with their keys. *)
Definition by_key_le (p q : sort_key * item) : Prop :=
  sort_key_le (fst p) (fst q) = true.

Definition keyed (p : sort_key * item) : Prop :=
  sort_key_of (snd p) = Ok (fst p).

(** The fields of a table line: stripped, then split on tabs. *)
Definition line_fields (line : str) : list str := split TAB (strip line).

(** A malformed table line, in the words of the specification: a field
    count other than 3 or 4, a weight field that [int] rejects, or a
    character field that is not one code point. *)
Definition malformed (line : str) : Prop :=
  (length (line_fields line) <> 3%nat /\ length (line_fields line) <> 4%nat)
  \/ py_int (nth 2 (line_fields line) []) = None
  \/ length (nth 1 (line_fields line) []) <> 1%nat.

(** A well-formed one: it unpacks into four fields, its character is one
    code point, and [int] accepts its weight. *)
Definition well_formed (line : str) : Prop :=
  exists input c w cm,
    fields line = Ok (input, [c], w, cm) /\ py_int w <> None.

(** The key a table line is stored under. *)
Definition line_key (line : str) : key :=
  (nth 0 (line_fields line) [], nth 1 (line_fields line) []).

(** The diagnostics of lines 142-161 do not raise on the key of a line. *)
Definition quiet (line : str) : Prop :=
  variants_diagnostics (line_key line) = Ok tt.

(** [chinese_variants] is missing. *)
Definition diagnostics_off : Prop :=
  IMPORT_CHINESE_VARIANTS_SUCCESSFUL env = false.

(** The optional diagnostics let the run pass: [chinese_variants] is
    missing, or the region has a line (so that line 143 is reached) and
    no lookup raises. *)
Definition diagnostics_pass (region : list str) : Prop :=
  diagnostics_off \/ (region <> [] /\ Forall quiet region).

(** An item after the normalizer: same key, same comment, and its old
    weight or 900. *)
Definition same_or_900 (x x' : item) : Prop :=
  fst x' = fst x
  /\ comment (snd x') = comment (snd x)
  /\ (weight (snd x') = weight (snd x) \/ weight (snd x') = 900).


(** The key of a parsed line. *)
Definition entry_key (e : entry) : key := fst (fst e).

(** Some line of the region has an input starting with [x] and the
    character [c]. *)
Definition x_sibling (es : list entry) (c : str) : Prop :=
  exists input,
    In (input, c) (map entry_key es) /\ startswith input x_prefix = true.

(** The keys whose weight the run sets to 900. *)
Definition demoted (es : list entry) (k : key) : Prop :=
  over_alphabet (fst k) /\ x_sibling es (snd k).


(** [sep.join(fields)], which undoes [split]. *)
Fixpoint join (sep : char) (fs : list str) : str :=
  match fs with
  | [] => []
  | f :: fs' =>
      match fs' with
      | [] => f
      | _ :: _ => f ++ sep :: join sep fs'
      end
  end.

(** Shapes of the fields that reach the table. *)
Definition starts_clean (f : str) : Prop :=
  exists a r, f = a :: r /\ isspace a = false.

Definition ends_clean (f : str) : Prop :=
  exists r z, f = r ++ [z] /\ isspace z = false.

Definition tab_free (f : str) : Prop := ~ In TAB f.

(** A stored item is clean: its input is not empty and does not start
    with whitespace; input, character and comment hold no tab; a comment
    that is not empty does not end with whitespace. *)
Definition clean (x : item) : Prop :=
  starts_clean (fst (fst x))
  /\ tab_free (fst (fst x))
  /\ tab_free (snd (fst x))
  /\ tab_free (comment (snd x))
  /\ (comment (snd x) = [] \/ ends_clean (comment (snd x))).

(** The line read back gives the fields that were written. *)
Definition reads_back (x : item) : Prop :=
  fields (format_item x)
  = Ok (fst (fst x), snd (fst x), str_of_int (weight (snd x)),
        comment (snd x)).

(** A decimal digit. *)
Definition is_digit (c : char) : Prop := (48 <= c <= 57)%N.


(** The parsed line a stored item stands for. *)
Definition to_entry (x : item) : entry :=
  (fst x, weight (snd x), comment (snd x)).

(** [int] reads the decimal form of the weight of an item back. *)
Definition weight_reads_back (x : item) : Prop :=
  py_int (str_of_int (weight (snd x))) = Some (weight (snd x)).






Arguments targets : simpl never.
Arguments rewrite_variants : simpl never.

(** ** Facts about the record store *)

Lemma keys_set_weight k w t : keys (set_weight k w t) = keys t.
Proof.
  induction t as [|[k' v] t IH]; simpl; auto.
  destruct (key_eq_dec k k'); simpl; auto. f_equal. exact IH.
Qed.

Lemma lookup_set_weight_same k w t :
  lookup k (set_weight k w t) = option_map (with_weight w) (lookup k t).
Proof.
  induction t as [|[k' v] t IH]; simpl; auto.
  destruct (key_eq_dec k k') as [E|E]; simpl;
    destruct (key_eq_dec k k'); try contradiction; auto.
Qed.

Lemma lookup_set_weight_other k k' w t :
  k' <> k -> lookup k' (set_weight k w t) = lookup k' t.
Proof.
  intros N. induction t as [|[k0 v] t IH]; simpl; auto.
  destruct (key_eq_dec k k0) as [E|E]; simpl.
  - subst k0. destruct (key_eq_dec k' k); [contradiction|auto].
  - destruct (key_eq_dec k' k0); auto.
Qed.


Lemma set_weight_fixed k w t v :
  lookup k t = Some v -> weight v = w -> set_weight k w t = t.
Proof.
  induction t as [|[k' v'] t IH]; simpl; [discriminate|].
  destruct (key_eq_dec k k').
  - intros [= ->] <-. now destruct v.
  - intros H1 H2. now rewrite IH.
Qed.

Lemma lookup_None_keys k t : lookup k t = None <-> ~ In k (keys t).
Proof.
  induction t as [|[k' v] t IH]; simpl; [tauto|].
  destruct (key_eq_dec k k') as [E|E].
  - split; [discriminate|]. intros H. exfalso. apply H. now left.
  - rewrite IH. split; intros H; [intros [F|F]; [now subst|auto]|tauto].
Qed.

Lemma lookup_Some_keys k t v : lookup k t = Some v -> In k (keys t).
Proof.
  intros H. destruct (in_dec key_eq_dec k (keys t)) as [I|I]; auto.
  apply lookup_None_keys in I. congruence.
Qed.


Lemma keys_setitem_new k v t :
  lookup k t = None -> setitem k v t = t ++ [(k, v)].
Proof.
  induction t as [|[k' v'] t IH]; simpl; auto.
  destruct (key_eq_dec k k'); [discriminate|]. intros H. now rewrite IH.
Qed.

Lemma lookup_app k t1 t2 :
  lookup k (t1 ++ t2) =
  match lookup k t1 with Some v => Some v | None => lookup k t2 end.
Proof.
  induction t1 as [|[k' v'] t1 IH]; simpl; auto.
  destruct (key_eq_dec k k'); auto.
Qed.

(** ** Facts about the normalizer *)

Lemma keys_demote t k : keys (demote t k) = keys t.
Proof. unfold demote. destruct (mem k t); auto using keys_set_weight. Qed.

Lemma lookup_demote_same t k :
  lookup k (demote t k) = option_map (with_weight 900) (lookup k t).
Proof.
  unfold demote, mem. destruct (lookup k t) eqn:E.
  - now rewrite lookup_set_weight_same, E.
  - now rewrite E.
Qed.

Lemma lookup_demote_other t k k' :
  k' <> k -> lookup k' (demote t k) = lookup k' t.
Proof.
  intros N. unfold demote. destruct (mem k t); auto.
  now apply lookup_set_weight_other.
Qed.

Lemma demote_fixed t k :
  (forall v, lookup k t = Some v -> weight v = 900) -> demote t k = t.
Proof.
  intros H. unfold demote, mem. destruct (lookup k t) as [v|] eqn:E; auto.
  apply set_weight_fixed with v; auto.
Qed.

Lemma keys_demote_all ks t : keys (fold_left demote ks t) = keys t.
Proof.
  revert t. induction ks as [|k ks IH]; intros t; simpl; auto.
  now rewrite IH, keys_demote.
Qed.

Lemma lookup_demote_all_out ks t k :
  ~ In k ks -> lookup k (fold_left demote ks t) = lookup k t.
Proof.
  revert t. induction ks as [|k0 ks IH]; intros t N; simpl; auto.
  rewrite IH by (intros F; apply N; now right).
  apply lookup_demote_other. intros ->. apply N. now left.
Qed.


Lemma lookup_demote_all_in ks t k :
  In k ks ->
  lookup k (fold_left demote ks t) = option_map (with_weight 900) (lookup k t).
Proof.
  revert t. induction ks as [|k0 ks IH]; intros t I; simpl; [destruct I|].
  destruct (in_dec key_eq_dec k ks) as [I'|I'].
  - rewrite IH by assumption.
    destruct (key_eq_dec k k0) as [->|N].
    + rewrite lookup_demote_same. now destruct (lookup k0 t).
    + now rewrite lookup_demote_other.
  - rewrite lookup_demote_all_out by assumption.
    destruct I as [->|I]; [apply lookup_demote_same|contradiction].
Qed.

Lemma demote_all_fixed ks t :
  (forall k v, In k ks -> lookup k t = Some v -> weight v = 900) ->
  fold_left demote ks t = t.
Proof.
  induction ks as [|k ks IH]; intros H; simpl; auto.
  rewrite demote_fixed.
  - apply IH. intros k' v I. apply H. now right.
  - intros v. apply H. now left.
Qed.

Lemma fold_left_map_demote {A : Type} (f : A -> key) (l : list A) t :
  fold_left (fun t a => demote t (f a)) l t = fold_left demote (map f l) t.
Proof. revert t. induction l; intros; simpl; auto. Qed.

Lemma nested_loops_flat (c : str) (outer inner : str) t :
  fold_left
    (fun t input1 =>
       let t := demote t ([input1], c) in
       fold_left (fun t input2 => demote t ([input1] ++ [input2], c)) inner t)
    outer t
  = fold_left demote
      (flat_map
         (fun input1 =>
            ([input1], c)
            :: map (fun input2 => ([input1] ++ [input2], c)) inner)
         outer) t.
Proof.
  revert t. induction outer as [|a outer IH]; intros t; simpl; auto.
  rewrite fold_left_app, IH. simpl. f_equal.
  apply (fold_left_map_demote (fun input2 => (a :: [input2], c))).
Qed.

Lemma rewrite_variants_targets c t :
  rewrite_variants c t = fold_left demote (targets c) t.
Proof. apply nested_loops_flat. Qed.

Lemma in_alphabet_In c : in_alphabet c = true <-> In c valid_input_chars_without_x.
Proof.
  unfold in_alphabet. rewrite existsb_exists. split.
  - intros [x [I E]]. apply N.eqb_eq in E. now subst.
  - intros I. exists c. split; auto. apply N.eqb_refl.
Qed.

Lemma in_targets input c' c :
  In (input, c') (targets c) <-> c' = c /\ is_variant_input input = true.
Proof.
  unfold targets. rewrite in_flat_map. split.
  - intros [a [Ia [E|I]]].
    + inversion E; subst. split; auto. simpl. now apply in_alphabet_In.
    + apply in_map_iff in I. destruct I as [b [E Ib]].
      inversion E; subst. split; auto. simpl.
      apply andb_true_intro. split; now apply in_alphabet_In.
  - intros [-> V]. destruct input as [|a [|b [|? ?]]]; simpl in V;
      try discriminate.
    + exists a. split; [now apply in_alphabet_In|now left].
    + apply andb_prop in V. destruct V as [Va Vb].
      exists a. split; [now apply in_alphabet_In|]. right.
      apply in_map_iff. exists b. split; auto. now apply in_alphabet_In.
Qed.

Lemma visit_check t k :
  visit t k = (_ <- check k ;; Ok (fold_left demote (targets_of k) t)).
Proof.
  destruct k as [input c]. unfold visit, check, targets_of. simpl.
  destruct (unicodedata_name c); simpl; auto.
  destruct (variants_diagnostics (input, c)); simpl; auto.
  destruct (startswith input x_prefix); [|reflexivity].
  rewrite rewrite_variants_targets. reflexivity.
Qed.

Lemma visit_all_check ks t :
  visit_all ks t =
  (_ <- check_all ks ;; Ok (fold_left demote (flat_map targets_of ks) t)).
Proof.
  revert t. induction ks as [|k ks IH]; intros t; simpl; auto.
  rewrite visit_check. destruct (check k); simpl; auto.
  rewrite IH. destruct (check_all ks); simpl; auto.
  now rewrite fold_left_app.
Qed.

Lemma normalize_Ok t t' :
  normalize t = Ok t' ->
  check_all (keys t) = Ok tt
  /\ t' = fold_left demote (flat_map targets_of (keys t)) t.
Proof.
  unfold normalize. rewrite visit_all_check.
  destruct (check_all (keys t)) as [[]|]; simpl; [|discriminate].
  intros [= <-]. auto.
Qed.

Lemma in_all_targets t input c :
  In (input, c) (flat_map targets_of (keys t)) <->
  has_x_record t c /\ is_variant_input input = true.
Proof.
  rewrite in_flat_map. unfold has_x_record, targets_of. split.
  - intros [[ix cx] [I T]]. simpl in T.
    destruct (startswith ix x_prefix) eqn:S; [|destruct T].
    apply in_targets in T. destruct T as [-> V]. split; auto.
    exists ix. auto.
  - intros [[ix [I S]] V]. exists (ix, c). split; auto. simpl.
    rewrite S. apply in_targets. auto.
Qed.

Lemma normalize_keys t t' : normalize t = Ok t' -> keys t' = keys t.
Proof.
  intros H. apply normalize_Ok in H. destruct H as [_ ->].
  apply keys_demote_all.
Qed.

(** ** Facts about the reader *)

Lemma read_lines_app st l1 l2 :
  read_lines st (l1 ++ l2) = (st' <- read_lines st l1 ;; read_lines st' l2).
Proof.
  revert st. induction l1 as [|a l1 IH]; intros st; simpl; auto.
  destruct (read_line st a); simpl; auto.
Qed.

(** While the header is read, lines go to [head]. *)
Lemma read_header h pre :
  Forall (fun line => is_begin line = false) pre ->
  read_lines {| head := h; tail := []; tbl := [];
                reading_head := true; reading_table := true |} pre
  = Ok {| head := h ++ pre; tail := []; tbl := [];
          reading_head := true; reading_table := true |}.
Proof.
  intros F. revert h. induction F as [|a pre Ha F IH]; intros h; simpl.
  - now rewrite app_nil_r.
  - unfold read_line; simpl. unfold is_begin in Ha. rewrite Ha. simpl.
    rewrite IH. now rewrite <- app_assoc.
Qed.

(** The first line that starts with the marker ends the header. *)
Lemma read_marker h b :
  is_begin b = true ->
  read_line {| head := h; tail := []; tbl := [];
               reading_head := true; reading_table := true |} b
  = Ok {| head := h ++ [BEGIN_TABLE_line]; tail := []; tbl := [];
          reading_head := false; reading_table := true |}.
Proof.
  intros Hb. unfold read_line; simpl. unfold is_begin in Hb. now rewrite Hb.
Qed.

(** In the table region every line goes through [read_table_line]. *)
Lemma read_region h t region :
  Forall (fun line => is_end line = false) region ->
  read_lines {| head := h; tail := []; tbl := t;
                reading_head := false; reading_table := true |} region
  = (t' <- read_table_lines t region ;;
     Ok {| head := h; tail := []; tbl := t';
           reading_head := false; reading_table := true |}).
Proof.
  intros F. revert t. induction F as [|a region Ha F IH]; intros t; simpl; auto.
  unfold read_line at 1; simpl. unfold is_end in Ha. rewrite Ha. simpl.
  destruct (read_table_line t a); simpl; auto.
Qed.

(** After the table every line goes to [tail]. *)
Lemma read_trailer h tl t post :
  read_lines {| head := h; tail := tl; tbl := t;
                reading_head := false; reading_table := false |} post
  = Ok {| head := h; tail := tl ++ post; tbl := t;
          reading_head := false; reading_table := false |}.
Proof.
  revert tl. induction post as [|a post IH]; intros tl; simpl.
  - now rewrite app_nil_r.
  - unfold read_line; simpl. rewrite IH. now rewrite <- app_assoc.
Qed.

Lemma read_from_end h t post :
  starts_with_end post ->
  exists rt,
    read_lines {| head := h; tail := []; tbl := t;
                  reading_head := false; reading_table := true |} post
    = Ok {| head := h; tail := post; tbl := t;
            reading_head := false; reading_table := rt |}.
Proof.
  destruct post as [|e post]; simpl; intros He.
  - now exists true.
  - exists false. unfold read_line; simpl. unfold is_end in He. rewrite He.
    simpl. apply (read_trailer h [e] t post).
Qed.

(** A file cut at its two markers: the table of the reader is the table
    of its region, the rest is kept as it is. *)
Lemma read_lines_regions pre b region post :
  Forall (fun line => is_begin line = false) pre ->
  is_begin b = true ->
  Forall (fun line => is_end line = false) region ->
  starts_with_end post ->
  exists rt,
    read_lines reader_init (pre ++ b :: region ++ post)
    = (t <- read_table_lines [] region ;;
       Ok {| head := pre ++ [BEGIN_TABLE_line]; tail := post; tbl := t;
             reading_head := false; reading_table := rt |}).
Proof.
  intros Fp Hb Fr He.
  destruct (read_table_lines [] region) as [t|e] eqn:Et.
  - destruct (read_from_end (pre ++ [BEGIN_TABLE_line]) t post He) as [rt Hrt].
    exists rt. rewrite read_lines_app. unfold reader_init.
    rewrite (read_header [] pre Fp). simpl.
    rewrite (read_marker pre b Hb). simpl.
    rewrite read_lines_app, (read_region _ _ _ Fr), Et. simpl. exact Hrt.
  - exists true. rewrite read_lines_app. unfold reader_init.
    rewrite (read_header [] pre Fp). simpl.
    rewrite (read_marker pre b Hb). simpl.
    rewrite read_lines_app, (read_region _ _ _ Fr), Et. reflexivity.
Qed.

(** Reading a line of the region is parsing it and updating the dict. *)
Lemma read_table_line_parse t line :
  read_table_line t line = (e <- parse_line line ;; Ok (upsert t e)).
Proof.
  unfold read_table_line, parse_line.
  destruct (fields line) as [[[[i c] w] cm]|]; simpl; auto.
  destruct (lookup (i, c) t) eqn:E; destruct (int_of w); simpl; auto;
    now rewrite E.
Qed.

Lemma read_table_lines_parse t region :
  read_table_lines t region =
  (es <- parse_all region ;; Ok (fold_left upsert es t)).
Proof.
  revert t. induction region as [|a region IH]; intros t; simpl; auto.
  rewrite read_table_line_parse. destruct (parse_line a); simpl; auto.
  rewrite IH. destruct (parse_all region); simpl; auto.
Qed.

Lemma keys_upsert t e :
  keys (upsert t e) = keys t \/
  (~ In (fst (fst e)) (keys t) /\ keys (upsert t e) = keys t ++ [fst (fst e)]).
Proof.
  destruct e as [[k w] c]. simpl.
  destruct (lookup k t) eqn:E.
  - left. apply keys_set_weight.
  - right. split; [now apply lookup_None_keys|].
    rewrite keys_setitem_new by assumption. unfold keys.
    now rewrite map_app.
Qed.

Lemma NoDup_snoc {A : Type} (l : list A) (a : A) :
  NoDup l -> ~ In a l -> NoDup (l ++ [a]).
Proof.
  induction 1 as [|x l Hx Hl IH]; intros Ha; simpl.
  - constructor; [intros []|constructor].
  - constructor.
    + rewrite in_app_iff. intros [I|[E|[]]]; [auto|].
      subst. apply Ha. now left.
    + apply IH. intros I. apply Ha. now right.
Qed.

Lemma NoDup_upsert t e : NoDup (keys t) -> NoDup (keys (upsert t e)).
Proof.
  intros H. destruct (keys_upsert t e) as [E|[N E]]; rewrite E; auto.
  now apply NoDup_snoc.
Qed.

Lemma NoDup_upsert_all es t :
  NoDup (keys t) -> NoDup (keys (fold_left upsert es t)).
Proof.
  revert t. induction es as [|e es IH]; intros t H; simpl; auto.
  apply IH. now apply NoDup_upsert.
Qed.

Lemma In_keys_upsert t e k : In k (keys t) -> In k (keys (upsert t e)).
Proof.
  intros I. destruct (keys_upsert t e) as [E|[_ E]]; rewrite E; auto.
  apply in_or_app. now left.
Qed.

Lemma In_keys_upsert_all es t k :
  In k (keys t) -> In k (keys (fold_left upsert es t)).
Proof.
  revert t. induction es as [|e es IH]; intros t H; simpl; auto.
  apply IH. now apply In_keys_upsert.
Qed.

Lemma In_keys_upsert_self t e : In (fst (fst e)) (keys (upsert t e)).
Proof.
  destruct e as [[k w] c]. simpl.
  destruct (lookup k t) eqn:L.
  - rewrite keys_set_weight. now apply lookup_Some_keys in L.
  - rewrite keys_setitem_new by assumption. unfold keys.
    rewrite map_app. apply in_or_app. right. now left.
Qed.

(** Keys of the table come from entries. *)
Lemma keys_upsert_all_from es t k :
  In k (keys (fold_left upsert es t)) ->
  In k (keys t) \/ In k (map (fun e : entry => fst (fst e)) es).
Proof.
  revert t. induction es as [|e es IH]; intros t H; simpl in *; auto.
  apply IH in H. destruct H as [H|H]; [|auto].
  destruct (keys_upsert t e) as [E|[_ E]]; rewrite E in H; auto.
  apply in_app_or in H. destruct H as [H|[H|[]]]; auto.
Qed.

(** ** The duplicate merge *)

Lemma lookup_setitem_new k v t k' :
  lookup k t = None ->
  lookup k' (setitem k v t) =
  match lookup k' t with
  | Some v' => Some v'
  | None => if key_eq_dec k' k then Some v else None
  end.
Proof.
  intros H. rewrite keys_setitem_new by assumption.
  rewrite lookup_app. reflexivity.
Qed.

Lemma lookup_upsert_same t k w c :
  lookup k (upsert t (k, w, c)) =
  Some match lookup k t with
       | Some v => {| weight := Z.max w (weight v); comment := comment v |}
       | None => {| weight := w; comment := c |}
       end.
Proof.
  unfold upsert. destruct (lookup k t) as [v|] eqn:E.
  - now rewrite lookup_set_weight_same, E.
  - rewrite lookup_setitem_new, E by assumption.
    destruct (key_eq_dec k k); [reflexivity|contradiction].
Qed.

Lemma lookup_upsert_other t k w c k' :
  k' <> k -> lookup k' (upsert t (k, w, c)) = lookup k' t.
Proof.
  intros N. unfold upsert. destruct (lookup k t) as [v|] eqn:E.
  - now apply lookup_set_weight_other.
  - rewrite lookup_setitem_new by assumption.
    destruct (lookup k' t); auto.
    destruct (key_eq_dec k' k); [contradiction|reflexivity].
Qed.

Lemma max_weight_first_comment k es :
  max_weight k es = None <-> first_comment k es = None.
Proof.
  induction es as [|[[k' w] c] es IH]; simpl; [tauto|].
  destruct (key_eq_dec k k'); [split; discriminate|exact IH].
Qed.

(** The table after a run of entries, key by key. *)
Lemma lookup_upsert_all es : forall t k,
  lookup k (fold_left upsert es t) =
  match lookup k t with
  | Some v =>
      Some {| weight := match max_weight k es with
                        | Some m => Z.max (weight v) m
                        | None => weight v
                        end;
              comment := comment v |}
  | None =>
      match max_weight k es, first_comment k es with
      | Some m, Some c => Some {| weight := m; comment := c |}
      | _, _ => None
      end
  end.
Proof.
  induction es as [|[[k' w] c] es IH]; intros t k;
    cbn [fold_left max_weight first_comment].
  - destruct (lookup k t) as [[]|]; reflexivity.
  - rewrite IH. destruct (key_eq_dec k k') as [<-|N].
    + rewrite lookup_upsert_same.
      destruct (lookup k t) as [v|]; simpl;
        destruct (max_weight k es); do 2 f_equal; lia.
    + now rewrite lookup_upsert_other.
Qed.

Lemma merged_weight es k :
  option_map weight (lookup k (fold_left upsert es [])) = max_weight k es.
Proof.
  rewrite lookup_upsert_all. simpl.
  destruct (max_weight k es) eqn:M; destruct (first_comment k es) eqn:C;
    simpl; auto.
  apply max_weight_first_comment in C. congruence.
Qed.

Lemma merged_comment es k :
  option_map comment (lookup k (fold_left upsert es [])) = first_comment k es.
Proof.
  rewrite lookup_upsert_all. simpl.
  destruct (max_weight k es) eqn:M; destruct (first_comment k es) eqn:C;
    simpl; auto.
  apply max_weight_first_comment in M. congruence.
Qed.

(** ** The order of the table body *)

Lemma str_compare_eq a b : str_compare a b = Eq -> a = b.
Proof.
  revert b. induction a as [|x a IH]; destruct b as [|y b]; simpl;
    try discriminate; auto.
  destruct (N.compare_spec x y) as [E|L|G]; try discriminate.
  intros Hab. subst. f_equal. auto.
Qed.

Lemma str_compare_refl a : str_compare a a = Eq.
Proof.
  induction a as [|x a IH]; simpl; auto. now rewrite N.compare_refl.
Qed.

Lemma str_compare_antisym a b : str_compare b a = CompOpp (str_compare a b).
Proof.
  revert b. induction a as [|x a IH]; destruct b as [|y b]; simpl; auto.
  rewrite (N.compare_antisym x y).
  destruct (N.compare x y); simpl; auto.
Qed.

Lemma str_compare_lt_trans a b c :
  str_compare a b = Lt -> str_compare b c = Lt -> str_compare a c = Lt.
Proof.
  revert b c. induction a as [|x a IH]; destruct b as [|y b];
    destruct c as [|z c]; simpl; try discriminate; auto.
  destruct (N.compare_spec x y); try discriminate;
    destruct (N.compare_spec y z); try discriminate;
    destruct (N.compare_spec x z); try lia; eauto.
Qed.

Lemma sort_key_compare_eq a b : sort_key_compare a b = Eq -> a = b.
Proof.
  destruct a as [[i1 w1] o1], b as [[i2 w2] o2]. simpl.
  destruct (str_compare i1 i2) eqn:Ei; try discriminate.
  destruct (Z.compare_spec w1 w2); try discriminate.
  intros Eo. apply Z.compare_eq in Eo. apply str_compare_eq in Ei.
  now subst.
Qed.

Lemma sort_key_compare_antisym a b :
  sort_key_compare b a = CompOpp (sort_key_compare a b).
Proof.
  destruct a as [[i1 w1] o1], b as [[i2 w2] o2]. simpl.
  rewrite (str_compare_antisym i1 i2), (Z.compare_antisym w1 w2),
    (Z.compare_antisym o1 o2).
  destruct (str_compare i1 i2); simpl; auto.
  destruct (Z.compare w1 w2); simpl; auto.
Qed.

Lemma sort_key_compare_lt_trans a b c :
  sort_key_compare a b = Lt -> sort_key_compare b c = Lt ->
  sort_key_compare a c = Lt.
Proof.
  destruct a as [[i1 w1] o1], b as [[i2 w2] o2], c as [[i3 w3] o3]. simpl.
  destruct (str_compare i1 i2) eqn:E12; try discriminate;
    destruct (str_compare i2 i3) eqn:E23; try discriminate;
    try (apply str_compare_eq in E12; subst i2);
    try (apply str_compare_eq in E23; subst i3);
    try rewrite str_compare_refl; try rewrite E12; try rewrite E23; auto.
  - destruct (Z.compare_spec w1 w2); try discriminate;
      destruct (Z.compare_spec w2 w3); try discriminate;
      destruct (Z.compare_spec w1 w3); try lia; auto.
    rewrite !Z.compare_lt_iff. lia.
  - now rewrite (str_compare_lt_trans _ _ _ E12 E23).
Qed.

Lemma sort_key_le_total a b : sort_key_le a b = false -> sort_key_le b a = true.
Proof.
  unfold sort_key_le. rewrite (sort_key_compare_antisym a b).
  destruct (sort_key_compare a b); simpl; auto; discriminate.
Qed.

Lemma sort_key_le_trans a b c :
  sort_key_le a b = true -> sort_key_le b c = true -> sort_key_le a c = true.
Proof.
  unfold sort_key_le.
  destruct (sort_key_compare a b) eqn:Eab; try discriminate;
    destruct (sort_key_compare b c) eqn:Ebc; try discriminate; intros _ _.
  - apply sort_key_compare_eq in Eab. subst b. now rewrite Ebc.
  - apply sort_key_compare_eq in Eab. subst b. now rewrite Ebc.
  - apply sort_key_compare_eq in Ebc. subst c. now rewrite Eab.
  - now rewrite (sort_key_compare_lt_trans _ _ _ Eab Ebc).
Qed.

Lemma insert_by_key_perm x l : Permutation (insert_by_key x l) (x :: l).
Proof.
  induction l as [|y l IH]; simpl; auto.
  destruct (sort_key_le (fst x) (fst y)); auto.
  rewrite IH. apply perm_swap.
Qed.

Lemma sort_by_key_perm l : Permutation (sort_by_key l) l.
Proof.
  induction l as [|x l IH]; simpl; auto.
  rewrite insert_by_key_perm. now constructor.
Qed.

Lemma insert_by_key_sorted x l :
  Sorted by_key_le l -> Sorted by_key_le (insert_by_key x l).
Proof.
  induction 1 as [|y l Hs IH Hd]; simpl.
  - repeat constructor.
  - destruct (sort_key_le (fst x) (fst y)) eqn:E.
    + constructor; [now constructor|]. now constructor.
    + constructor; auto.
      apply sort_key_le_total in E.
      destruct l as [|z l]; simpl in *.
      * now constructor.
      * destruct (sort_key_le (fst x) (fst z)); constructor; auto.
        now inversion Hd.
Qed.

Lemma sort_by_key_sorted l : Sorted by_key_le (sort_by_key l).
Proof.
  induction l as [|x l IH]; simpl; [constructor|].
  now apply insert_by_key_sorted.
Qed.

(** Sorting a sorted list changes nothing. *)
Lemma sort_by_key_fixed l : Sorted by_key_le l -> sort_by_key l = l.
Proof.
  induction 1 as [|x l Hs IH Hd]; simpl; auto.
  rewrite IH. destruct Hd as [|y l Hxy]; simpl; auto.
  unfold by_key_le in Hxy. now rewrite Hxy.
Qed.

Lemma decorate_Ok items d :
  decorate items = Ok d -> map snd d = items /\ Forall keyed d.
Proof.
  revert d. induction items as [|x items IH]; simpl; intros d.
  - intros [= <-]. split; constructor.
  - destruct (sort_key_of x) as [kx|] eqn:Ex; simpl; [|discriminate].
    destruct (decorate items) as [drest|]; simpl; [|discriminate].
    intros [= <-]. destruct (IH drest eq_refl) as [M F].
    split; simpl; [now rewrite M|]. constructor; auto.
Qed.

Lemma decorate_keyed d : Forall keyed d -> decorate (map snd d) = Ok d.
Proof.
  induction 1 as [|[k x] d Hk F IH]; simpl; auto.
  unfold keyed in Hk. simpl in Hk. rewrite Hk. simpl. now rewrite IH.
Qed.

Lemma sorted_Ok items body :
  sorted items = Ok body ->
  exists d, decorate items = Ok d /\ body = map snd (sort_by_key d).
Proof.
  unfold sorted. destruct (decorate items) as [d|]; simpl; [|discriminate].
  intros [= <-]. eauto.
Qed.

Lemma sorted_perm items body :
  sorted items = Ok body -> Permutation body items.
Proof.
  intros H. apply sorted_Ok in H. destruct H as [d [D ->]].
  apply decorate_Ok in D. destruct D as [<- _].
  apply Permutation_map, sort_by_key_perm.
Qed.

(** Sorting the sorted body again gives the same body. *)
Lemma sorted_again items body : sorted items = Ok body -> sorted body = Ok body.
Proof.
  intros H. apply sorted_Ok in H. destruct H as [d [D ->]].
  apply decorate_Ok in D. destruct D as [_ F].
  unfold sorted. rewrite decorate_keyed.
  - simpl. now rewrite sort_by_key_fixed by apply sort_by_key_sorted.
  - rewrite Forall_forall in *. intros p Hp. apply F.
    eapply Permutation_in; [apply sort_by_key_perm|exact Hp].
Qed.

(** Two items in key order with different dict keys are in the strict
    order of the specification. *)
Lemma by_key_le_item_lt p q :
  keyed p -> keyed q -> by_key_le p q -> fst (snd p) <> fst (snd q) ->
  item_lt (snd p) (snd q).
Proof.
  destruct p as [kp [[ix cx] vx]], q as [kq [[iy cy] vy]].
  unfold keyed, by_key_le, sort_key_of, sort_key_le. simpl.
  destruct cx as [|px [|? ?]]; simpl; try discriminate.
  destruct cy as [|py [|? ?]]; simpl; try discriminate.
  intros [= <-] [= <-]. simpl.
  destruct (str_compare ix iy) eqn:Ei; try discriminate; intros Hle N.
  - apply str_compare_eq in Ei. subst iy. right. split; auto.
    destruct (Z.compare_spec (- weight vx) (- weight vy)) as [E|L|G].
    + right. split; [lia|]. exists px, py. repeat split.
      destruct (N.compare_spec px py) as [E'|L'|G']; auto.
      * subst. now contradiction N.
      * exfalso. revert Hle.
        destruct (Z.compare_spec (Z.of_N px) (Z.of_N py));
          [lia|lia|discriminate].
    + left. lia.
    + discriminate.
  - now left.
Qed.

Lemma by_key_le_transitive : Relations_1.Transitive by_key_le.
Proof.
  intros p q r. unfold by_key_le. apply sort_key_le_trans.
Qed.

Lemma strict_of_sorted d :
  StronglySorted by_key_le d -> Forall keyed d ->
  NoDup (keys (map snd d)) -> StronglySorted item_lt (map snd d).
Proof.
  induction 1 as [|p l Hs IH Hp]; simpl; intros Hk Hn; [constructor|].
  inversion Hk as [|? ? Kp Kl]; subst. inversion Hn as [|? ? Np Nl]; subst.
  constructor; [now apply IH|].
  rewrite Forall_forall. intros y Hy.
  apply in_map_iff in Hy. destruct Hy as [q [<- Hq]].
  rewrite Forall_forall in Hp, Kl.
  apply by_key_le_item_lt; auto.
  intros E. apply Np. rewrite E. unfold keys.
  apply in_map. now apply in_map.
Qed.

(** The sorted body is in the strict order of the specification when the
    dict keys are pairwise different. *)
Lemma sorted_strict items body :
  sorted items = Ok body -> NoDup (keys items) ->
  StronglySorted item_lt body.
Proof.
  intros H Hn. apply sorted_Ok in H. destruct H as [d [D ->]].
  apply decorate_Ok in D. destruct D as [M F].
  assert (P := sort_by_key_perm d).
  apply strict_of_sorted.
  - apply Sorted_StronglySorted; [apply by_key_le_transitive|].
    apply sort_by_key_sorted.
  - rewrite Forall_forall in *. intros p Hp. apply F.
    eapply Permutation_in; [exact P|exact Hp].
  - subst items. unfold keys in *.
    eapply Permutation_NoDup; [|exact Hn].
    apply Permutation_map, Permutation_map. now apply Permutation_sym.
Qed.

Lemma sorted_single_chars items :
  Forall (fun k : key => exists c, snd k = [c]) (keys items) ->
  exists body, sorted items = Ok body.
Proof.
  intros F. unfold sorted.
  assert (D : exists d, decorate items = Ok d).
  { induction items as [|[[i ch] v] items IH]; simpl; [eauto|].
    inversion F as [|? ? [c Hc] F']; subst. simpl in Hc. subst ch.
    destruct (IH F') as [d ->]. unfold sort_key_of. simpl. eauto. }
  destruct D as [d ->]. simpl. eauto.
Qed.

(** ** Facts about the whole run *)

Lemma read_line_NoDup st line st' :
  read_line st line = Ok st' ->
  NoDup (keys (tbl st)) -> NoDup (keys (tbl st')).
Proof.
  unfold read_line.
  destruct (reading_head st && negb (startswith line BEGIN_TABLE)).
  { now intros [= <-]. }
  destruct (reading_head st). { now intros [= <-]. }
  destruct (reading_table st && negb (startswith line END_TABLE)).
  2:{ now intros [= <-]. }
  rewrite read_table_line_parse.
  destruct (parse_line line) as [e|]; simpl; [|discriminate].
  intros [= <-]. simpl. apply NoDup_upsert.
Qed.

Lemma read_lines_NoDup lines : forall st st',
  read_lines st lines = Ok st' ->
  NoDup (keys (tbl st)) -> NoDup (keys (tbl st')).
Proof.
  induction lines as [|l lines IH]; simpl; intros st st'.
  - now intros [= <-].
  - destruct (read_line st l) as [st1|] eqn:E; simpl; [|discriminate].
    intros H N. eapply IH; eauto. eapply read_line_NoDup; eauto.
Qed.

Lemma read_line_keys st line st' k :
  read_line st line = Ok st' ->
  In k (keys (tbl st)) -> In k (keys (tbl st')).
Proof.
  unfold read_line.
  destruct (reading_head st && negb (startswith line BEGIN_TABLE)).
  { now intros [= <-]. }
  destruct (reading_head st). { now intros [= <-]. }
  destruct (reading_table st && negb (startswith line END_TABLE)).
  2:{ now intros [= <-]. }
  rewrite read_table_line_parse.
  destruct (parse_line line) as [e|]; simpl; [|discriminate].
  intros [= <-]. simpl. apply In_keys_upsert.
Qed.

Lemma read_lines_keys lines : forall st st' k,
  read_lines st lines = Ok st' ->
  In k (keys (tbl st)) -> In k (keys (tbl st')).
Proof.
  induction lines as [|l lines IH]; simpl; intros st st' k.
  - now intros [= <-].
  - destruct (read_line st l) as [st1|] eqn:E; simpl; [|discriminate].
    intros H N. eapply IH; eauto. eapply read_line_keys; eauto.
Qed.

(** A finished run went through the three phases. *)
Lemma improve_quick5_Finished lines out :
  improve_quick5 lines = Finished out ->
  exists st t body,
    read_lines reader_init lines = Ok st
    /\ normalize (tbl st) = Ok t
    /\ report_variants t = Ok tt
    /\ sorted t = Ok body
    /\ out = head st ++ map format_item body ++ tail st.
Proof.
  unfold improve_quick5.
  destruct (read_lines reader_init lines) as [st|] eqn:R; [|discriminate].
  destruct (normalize (tbl st)) as [t|] eqn:N; [|discriminate].
  destruct (report_variants t) as [[]|] eqn:V; [|discriminate].
  destruct (sorted t) as [body|] eqn:S; [|discriminate].
  intros [= <-]. exists st, t, body. repeat split; auto.
Qed.

Lemma check_all_pass ks :
  Forall (fun k : key => exists c, snd k = [c]) ks ->
  Forall (fun k : key => variants_diagnostics k = Ok tt) ks ->
  check_all ks = Ok tt.
Proof.
  induction 1 as [|k ks [c Hc] F IH]; intros Q; simpl; auto.
  inversion Q as [|? ? Qk Qs]; subst.
  unfold check. rewrite Hc, Qk. simpl. now apply IH.
Qed.

Lemma diagnostics_off_quiet k :
  diagnostics_off -> variants_diagnostics k = Ok tt.
Proof. intros Off. unfold variants_diagnostics. now rewrite Off. Qed.

Lemma check_all_bad ks k :
  In k ks -> length (snd k) <> 1%nat -> exists e, check_all ks = Raise e.
Proof.
  induction ks as [|k0 ks IH]; simpl; intros I L; [destruct I|].
  destruct (check k0) as [[]|e0] eqn:E; simpl; [|eauto].
  destruct I as [->|I]; [|auto].
  exfalso. unfold check in E. destruct k as [i [|c [|? ?]]]; simpl in *;
    try discriminate. now apply L.
Qed.

Lemma crash_of_read_raise lines e :
  read_lines reader_init lines = Raise e ->
  improve_quick5 lines = Crashed e None.
Proof. intros H. unfold improve_quick5. now rewrite H. Qed.

Lemma crash_of_bad_key lines st k :
  read_lines reader_init lines = Ok st ->
  In k (keys (tbl st)) -> length (snd k) <> 1%nat ->
  exists e, improve_quick5 lines = Crashed e None.
Proof.
  intros H I L. unfold improve_quick5, normalize. rewrite H.
  rewrite visit_all_check.
  destruct (check_all_bad _ _ I L) as [e ->]. simpl. eauto.
Qed.

(** A run finishes when the characters of its table are single code
    points, no lookup of the diagnostics raises, and the table is not
    empty in case [chinese_variants] is imported. *)
Lemma finishes_of_read lines st :
  read_lines reader_init lines = Ok st ->
  Forall (fun k : key => exists c, snd k = [c]) (keys (tbl st)) ->
  Forall (fun k : key => variants_diagnostics k = Ok tt) (keys (tbl st)) ->
  diagnostics_off \/ tbl st <> [] ->
  exists out, improve_quick5 lines = Finished out.
Proof.
  intros H F Q E. unfold improve_quick5, normalize. rewrite H.
  rewrite visit_all_check, (check_all_pass _ F Q). simpl.
  set (t := fold_left demote (flat_map targets_of (keys (tbl st))) (tbl st)).
  assert (K : keys t = keys (tbl st)) by apply keys_demote_all.
  assert (R : report_variants t = Ok tt).
  { unfold report_variants.
    destruct (IMPORT_CHINESE_VARIANTS_SUCCESSFUL env) eqn:I; auto.
    destruct E as [Off|Ne]; [unfold diagnostics_off in Off; congruence|].
    destruct t as [|x t]; auto.
    destruct (tbl st); [now contradiction Ne|discriminate K]. }
  rewrite R.
  destruct (sorted_single_chars t) as [body ->]; [now rewrite K|eauto].
Qed.

Lemma is_variant_input_spec input :
  is_variant_input input = true <-> over_alphabet input.
Proof.
  unfold over_alphabet.
  destruct input as [|a [|b [|c l]]]; cbn [is_variant_input length].
  - split; [discriminate|]. intros [[H|H] _]; discriminate.
  - rewrite in_alphabet_In. split.
    + intros H. split; [now left|]. constructor; [exact H|constructor].
    + intros [_ F]. inversion F; subst. assumption.
  - rewrite andb_true_iff, !in_alphabet_In. split.
    + intros [Ha Hb]. split; [now right|].
      constructor; [exact Ha|]. constructor; [exact Hb|constructor].
    + intros [_ F]. inversion F as [|? ? Ha F']; subst.
      inversion F'; subst. split; assumption.
  - split; [discriminate|]. intros [[H|H] _]; discriminate.
Qed.

Lemma parse_all_app r1 r2 :
  parse_all (r1 ++ r2) =
  (es1 <- parse_all r1 ;; es2 <- parse_all r2 ;; Ok (es1 ++ es2)).
Proof.
  induction r1 as [|a r1 IH]; simpl.
  - destruct (parse_all r2); reflexivity.
  - destruct (parse_line a); simpl; auto. rewrite IH.
    destruct (parse_all r1); simpl; auto.
    destruct (parse_all r2); simpl; auto.
Qed.

(** A malformed line does not parse, or parses to a key whose character
    is not one code point. *)
Lemma malformed_parse line :
  malformed line ->
  (exists e, parse_line line = Raise e)
  \/ (exists k w c, parse_line line = Ok (k, w, c) /\ length (snd k) <> 1%nat).
Proof.
  unfold malformed, parse_line, fields, line_fields.
  destruct (split TAB (strip line)) as [|f0 [|f1 [|f2 [|f3 [|f4 fs]]]]];
    simpl; try (intros _; left; eexists; reflexivity).
  - intros [[H _]|[H|H]]; [congruence| |].
    + left. unfold int_of. rewrite H. simpl. eauto.
    + destruct (int_of f2); simpl; [right|left]; eauto.
  - intros [[_ H]|[H|H]]; [congruence| |].
    + left. unfold int_of. rewrite H. simpl. eauto.
    + destruct (int_of f2); simpl; [right|left]; eauto.
Qed.

Lemma fields_Ok line input c w cm :
  fields line = Ok (input, c, w, cm) ->
  line_key line = (input, c) /\ nth 2 (line_fields line) [] = w.
Proof.
  unfold fields, line_key, line_fields.
  destruct (split TAB (strip line)) as [|f0 [|f1 [|f2 [|f3 [|f4 fs]]]]];
    simpl; try discriminate; intros [= <- <- <- <-]; auto.
Qed.

Lemma well_formed_parse line :
  well_formed line ->
  exists c w cm,
    parse_line line = Ok (line_key line, w, cm) /\ snd (line_key line) = [c].
Proof.
  intros [input [c [w [cm [F I]]]]].
  destruct (fields_Ok _ _ _ _ _ F) as [K _]. rewrite K.
  unfold parse_line. rewrite F. simpl. unfold int_of.
  destruct (py_int w) as [z|]; [|contradiction].
  exists c, z, cm. split; reflexivity.
Qed.

Lemma well_formed_parse_all region :
  Forall well_formed region ->
  exists es,
    parse_all region = Ok es
    /\ map (fun e : entry => fst (fst e)) es = map line_key region
    /\ Forall (fun k : key => exists c, snd k = [c]) (map line_key region).
Proof.
  induction 1 as [|line region W F IH]; simpl.
  - exists []. repeat split; auto.
  - destruct (well_formed_parse line W) as [c [w [cm [-> Hc]]]].
    destruct IH as [es [-> [M Fs]]]. simpl. eexists. split; [reflexivity|].
    simpl. split; [now rewrite M|]. constructor; eauto.
Qed.

(** Without a line that starts with the begin marker everything is header. *)
Lemma read_no_marker lines :
  Forall (fun line => is_begin line = false) lines ->
  read_lines reader_init lines
  = Ok {| head := lines; tail := []; tbl := [];
          reading_head := true; reading_table := true |}.
Proof. intros F. apply (read_header [] lines F). Qed.

(** With the diagnostics off such a file is copied. *)
Lemma copy_without_marker lines :
  diagnostics_off ->
  Forall (fun line => is_begin line = false) lines ->
  improve_quick5 lines = Finished lines.
Proof.
  intros Off F. unfold improve_quick5. rewrite (read_no_marker lines F).
  simpl. unfold report_variants. rewrite Off. simpl.
  now rewrite app_nil_r.
Qed.

(** With [chinese_variants] imported such a file ends the run at line 172. *)
Lemma crash_without_marker lines :
  IMPORT_CHINESE_VARIANTS_SUCCESSFUL env = true ->
  Forall (fun line => is_begin line = false) lines ->
  improve_quick5 lines = Crashed UnboundLocalError None.
Proof.
  intros On F. unfold improve_quick5. rewrite (read_no_marker lines F).
  simpl. unfold report_variants. now rewrite On.
Qed.

(** ** The properties of the specification *)

(** C1, x-demotion.  After the normalization pass, if the store holds a
    record whose input starts with [x] for the character [c], then every
    record [(input, c)] whose input has length 1 or 2 and is made of
    letters of the 25-letter alphabet has weight exactly 900, whatever
    its weight was before the pass. *)
Theorem x_demotion t t' input c v :
  normalize t = Ok t' ->
  has_x_record t c ->
  over_alphabet input ->
  lookup (input, c) t' = Some v ->
  weight v = 900.
Proof.
  intros N X A L. apply normalize_Ok in N. destruct N as [_ ->].
  rewrite lookup_demote_all_in in L.
  - destruct (lookup (input, c) t) as [v0|]; simpl in L; [|discriminate].
    now inversion L.
  - apply in_all_targets. split; auto. now apply is_variant_input_spec.
Qed.

(** C5, non-target preservation.  The normalization pass leaves a record
    as it was (weight and comment) when its character has no record
    with an input starting with [x], and also when its input is not a
    1- or 2-letter string over the alphabet. *)
Theorem non_target_preserved t t' input c :
  normalize t = Ok t' ->
  ~ has_x_record t c \/ ~ over_alphabet input ->
  lookup (input, c) t' = lookup (input, c) t.
Proof.
  intros N H. apply normalize_Ok in N. destruct N as [_ ->].
  apply lookup_demote_all_out. rewrite in_all_targets.
  rewrite is_variant_input_spec. intros [X A].
  destruct H as [H|H]; [exact (H X)|exact (H A)].
Qed.

(** C6, idempotence.  Running the normalization pass on its own result
    gives that result again; a pass that raises raises the same way. *)
Theorem normalize_idempotent t :
  (t' <- normalize t ;; normalize t') = normalize t.
Proof.
  destruct (normalize t) as [t'|e] eqn:N; simpl; [|reflexivity].
  pose proof (normalize_keys _ _ N) as K.
  apply normalize_Ok in N. destruct N as [C E].
  unfold normalize. rewrite visit_all_check, K, C. simpl. f_equal.
  apply demote_all_fixed. intros k v I L. subst t'.
  rewrite lookup_demote_all_in in L by assumption.
  destruct (lookup k t) as [v0|]; simpl in L; [|discriminate].
  now inversion L.
Qed.

(** C7, key preservation.  The normalization pass neither inserts nor
    deletes a key: the keys of the store after the pass are those before
    it, in the same order. *)
Theorem normalize_preserves_keys t t' :
  normalize t = Ok t' -> keys t' = keys t.
Proof.
  intros N. apply normalize_Ok in N. destruct N as [_ ->].
  apply keys_demote_all.
Qed.

(** C2, merge by maximum.  After the table region has been read, the
    keys of the store are pairwise different, and the weight stored
    under a key is the maximum of the weights of all lines of the region
    with that key (for two such lines with weights w1 and w2,
    max(w1, w2)). *)
Theorem merge_max pre b region post st :
  Forall (fun line => is_begin line = false) pre ->
  is_begin b = true ->
  Forall (fun line => is_end line = false) region ->
  starts_with_end post ->
  read_lines reader_init (pre ++ b :: region ++ post) = Ok st ->
  exists es,
    parse_all region = Ok es
    /\ NoDup (keys (tbl st))
    /\ forall k, option_map weight (lookup k (tbl st)) = max_weight k es.
Proof.
  intros Fp Hb Fr He R.
  destruct (read_lines_regions pre b region post Fp Hb Fr He) as [rt E].
  rewrite E, read_table_lines_parse in R.
  destruct (parse_all region) as [es|]; simpl in R; [|discriminate].
  inversion R; subst; simpl. exists es. split; [reflexivity|]. split.
  - apply NoDup_upsert_all. constructor.
  - intros k. apply merged_weight.
Qed.

(** C9, the first comment stays.  After the table region has been read,
    the record stored under a key carries the maximum weight of the
    lines with that key and the comment of the first of them; the
    comments of the later ones are not stored. *)
Theorem duplicate_keeps_first_comment pre b region post st :
  Forall (fun line => is_begin line = false) pre ->
  is_begin b = true ->
  Forall (fun line => is_end line = false) region ->
  starts_with_end post ->
  read_lines reader_init (pre ++ b :: region ++ post) = Ok st ->
  exists es,
    parse_all region = Ok es
    /\ forall k,
        lookup k (tbl st) =
        match max_weight k es, first_comment k es with
        | Some w, Some c => Some {| weight := w; comment := c |}
        | _, _ => None
        end.
Proof.
  intros Fp Hb Fr He R.
  destruct (read_lines_regions pre b region post Fp Hb Fr He) as [rt E].
  rewrite E, read_table_lines_parse in R.
  destruct (parse_all region) as [es|]; simpl in R; [|discriminate].
  inversion R; subst; simpl. exists es. split; [reflexivity|].
  intros k. now rewrite lookup_upsert_all.
Qed.

(** C3, the order of the table body.  The records written between head
    and tail are the records of the store, strictly ordered by input
    ascending, then weight descending, then code point ascending; sorting
    them again by the same key changes nothing. *)
Theorem body_sorted lines out :
  improve_quick5 lines = Finished out ->
  exists st t body,
    read_lines reader_init lines = Ok st
    /\ normalize (tbl st) = Ok t
    /\ out = head st ++ map format_item body ++ tail st
    /\ Permutation body t
    /\ StronglySorted item_lt body
    /\ sorted body = Ok body.
Proof.
  intros H. apply improve_quick5_Finished in H.
  destruct H as [st [t [body [R [N [_ [S ->]]]]]]].
  exists st, t, body. repeat split; auto.
  - now apply sorted_perm.
  - apply (sorted_strict t body S).
    rewrite (normalize_keys _ _ N).
    apply (read_lines_NoDup lines reader_init st R). constructor.
  - now apply sorted_again with t.
Qed.

(** Head and tail at the level of lines.  For a list of lines cut at its
    markers, whatever is written is the header lines, the canonical
    begin line, the table body, and the lines from the end marker on,
    unchanged and in order; and when every line of the region is well
    formed and the optional diagnostics let the run pass, the run does
    write it. *)
Lemma round_trip_of_lines pre b region post :
  Forall (fun line => is_begin line = false) pre ->
  is_begin b = true ->
  Forall (fun line => is_end line = false) region ->
  starts_with_end post ->
  (forall out,
      improve_quick5 (pre ++ b :: region ++ post) = Finished out ->
      exists body,
        out = pre ++ [BEGIN_TABLE_line] ++ map format_item body ++ post)
  /\ (Forall well_formed region -> diagnostics_pass region ->
      exists out, improve_quick5 (pre ++ b :: region ++ post) = Finished out).
Proof.
  intros Fp Hb Fr He.
  destruct (read_lines_regions pre b region post Fp Hb Fr He) as [rt E].
  split.
  - intros out H. apply improve_quick5_Finished in H.
    destruct H as [st [t [body [R [_ [_ [_ ->]]]]]]].
    rewrite E in R.
    destruct (read_table_lines [] region); simpl in R; [|discriminate].
    inversion R; subst; simpl. exists body. now rewrite <- app_assoc.
  - intros W D. rewrite read_table_lines_parse in E.
    destruct (well_formed_parse_all region W) as [es [P [M Fs]]].
    rewrite P in E. simpl in E.
    assert (From : forall k, In k (keys (fold_left upsert es [])) ->
                             In k (map line_key region)).
    { intros k Hk. apply keys_upsert_all_from in Hk.
      destruct Hk as [[]|Hk]. now rewrite <- M. }
    apply (finishes_of_read _ _ E); simpl.
    + rewrite Forall_forall in *. auto.
    + rewrite Forall_forall. intros k Hk. apply From in Hk.
      destruct D as [Off|[_ Q]]; [now apply diagnostics_off_quiet|].
      apply in_map_iff in Hk. destruct Hk as [line [<- Hl]].
      rewrite Forall_forall in Q. now apply Q.
    + destruct D as [Off|[Ne _]]; [now left|right].
      destruct es as [|e es]; [destruct region; [now contradiction Ne|discriminate M]|].
      simpl. intros Z.
      assert (I := In_keys_upsert_all es (upsert [] e) (fst (fst e))
                     (In_keys_upsert_self [] e)).
      rewrite Z in I. destruct I.
Qed.

(** C8, malformed lines are fatal.  If the table region has a malformed
    line (a field count other than 3 or 4, a weight that [int] rejects,
    or a character field that is not one code point), the run raises
    before the output file is opened. *)
Theorem malformed_line_is_fatal pre b good bad rest :
  Forall (fun line => is_begin line = false) pre ->
  is_begin b = true ->
  Forall (fun line => is_end line = false) good ->
  is_end bad = false ->
  malformed bad ->
  exists e,
    improve_quick5 (pre ++ b :: good ++ bad :: rest) = Crashed e None.
Proof.
  intros Fp Hb Fg Hbad M.
  set (lines := pre ++ b :: good ++ bad :: rest).
  assert (Fr : Forall (fun line => is_end line = false) (good ++ [bad])).
  { apply Forall_app. split; auto. }
  assert (E : read_lines reader_init lines =
              (t <- read_table_lines [] (good ++ [bad]) ;;
               read_lines {| head := pre ++ [BEGIN_TABLE_line]; tail := [];
                             tbl := t; reading_head := false;
                             reading_table := true |} rest)).
  { unfold lines. rewrite read_lines_app. unfold reader_init.
    rewrite (read_header [] pre Fp). simpl.
    rewrite (read_marker pre b Hb). simpl.
    replace (good ++ bad :: rest) with ((good ++ [bad]) ++ rest)
      by (now rewrite <- app_assoc).
    rewrite read_lines_app, (read_region _ _ _ Fr).
    destruct (read_table_lines [] (good ++ [bad])); reflexivity. }
  rewrite read_table_lines_parse, parse_all_app in E.
  destruct (parse_all good) as [es|e] eqn:Pg; simpl in E;
    [|exists e; now apply crash_of_read_raise].
  destruct (malformed_parse bad M) as [[e P]|[k [w [c [P L]]]]];
    rewrite P in E; simpl in E.
  - exists e. now apply crash_of_read_raise.
  - rewrite fold_left_app in E. simpl in E.
    match type of E with _ = read_lines ?s rest =>
      destruct (read_lines s rest) as [st|e] eqn:R end.
    + apply (crash_of_bad_key lines st k E); auto.
      apply (read_lines_keys _ _ _ _ R). simpl.
      apply (In_keys_upsert_self (fold_left upsert es []) (k, w, c)).
    + exists e. now apply crash_of_read_raise.
Qed.

(** ** Further properties of the run *)

Lemma check_all_Ok ks :
  check_all ks = Ok tt ->
  Forall (fun k : key => exists c, snd k = [c]) ks
  /\ Forall (fun k : key => variants_diagnostics k = Ok tt) ks.
Proof.
  induction ks as [|[i c] ks IH]; cbn [check_all]; intros H;
    [split; constructor|].
  unfold check in H. cbn [snd] in H.
  destruct c as [|x [|y c]]; cbn [unicodedata_name bind] in H;
    try discriminate.
  destruct (variants_diagnostics _) as [[]|] eqn:Q in H; cbn [bind] in H;
    [|discriminate].
  destruct (IH H) as [F1 F2]. split; constructor; simpl; eauto.
Qed.

Lemma check_all_Raise ks e :
  check_all ks = Raise e ->
  (e = TypeError /\ exists k, In k ks /\ length (snd k) <> 1%nat)
  \/ (e = LookupFailed
      /\ IMPORT_CHINESE_VARIANTS_SUCCESSFUL env = true
      /\ exists k, In k ks /\ variants_lookup_raises env k = true).
Proof.
  induction ks as [|k0 ks IH]; cbn [check_all]; [discriminate|].
  destruct (check k0) as [[]|e0] eqn:C; cbn [bind].
  - intros H. destruct (IH H) as [[E [k [Hk L]]]|[E [I [k [Hk L]]]]].
    + left. split; auto. exists k. split; [now right|assumption].
    + right. repeat split; auto. exists k. split; [now right|assumption].
  - intros [= E]. subst e0. clear IH. unfold check in C.
    destruct k0 as [i c].
    destruct c as [|x [|y c]]; cbn [snd unicodedata_name bind] in C.
    + inversion C. left. split; auto. exists (i, []). split; [now left|].
      simpl. discriminate.
    + unfold variants_diagnostics in C.
      destruct (IMPORT_CHINESE_VARIANTS_SUCCESSFUL env) eqn:I;
        [|discriminate].
      destruct (variants_lookup_raises env _) eqn:R in C; [|discriminate].
      inversion C. right. repeat split; auto. exists (i, [x]).
      split; [now left|assumption].
    + inversion C. left. split; auto. exists (i, x :: y :: c).
      split; [now left|]. simpl. discriminate.
Qed.

Lemma fields_Raise line e : fields line = Raise e -> e = ValueError.
Proof.
  unfold fields.
  destruct (split TAB (strip line)) as [|f0 [|f1 [|f2 [|f3 [|f4 fs]]]]];
    simpl; try discriminate; now intros [= <-].
Qed.

Lemma parse_line_Raise line e : parse_line line = Raise e -> e = ValueError.
Proof.
  unfold parse_line.
  destruct (fields line) as [[[[i c] w] cm]|e0] eqn:F; simpl.
  - unfold int_of. destruct (py_int w); simpl; [discriminate|].
    now intros [= <-].
  - intros [= <-]. now apply fields_Raise in F.
Qed.

Lemma read_line_Raise st line e : read_line st line = Raise e -> e = ValueError.
Proof.
  unfold read_line.
  destruct (reading_head st && negb (startswith line BEGIN_TABLE));
    [discriminate|].
  destruct (reading_head st); [discriminate|].
  destruct (reading_table st && negb (startswith line END_TABLE));
    [|discriminate].
  rewrite read_table_line_parse.
  destruct (parse_line line) as [x|e0] eqn:P; simpl; [discriminate|].
  intros [= <-]. now apply parse_line_Raise in P.
Qed.

Lemma read_lines_Raise lines : forall st e,
  read_lines st lines = Raise e -> e = ValueError.
Proof.
  induction lines as [|l lines IH]; simpl; intros st e; [discriminate|].
  destruct (read_line st l) as [st'|e0] eqn:R; simpl.
  - apply IH.
  - intros [= <-]. now apply read_line_Raise in R.
Qed.

Lemma keys_nil (t : table) : keys t = [] -> t = [].
Proof. destruct t; [reflexivity|discriminate]. Qed.

(** After the loop at line 126 has passed, [sorted] cannot raise. *)
Lemma output_never_partial_aux lines st t e :
  read_lines reader_init lines = Ok st ->
  normalize (tbl st) = Ok t ->
  sorted t = Raise e -> False.
Proof.
  intros _ N S. pose proof (normalize_keys _ _ N) as K.
  apply normalize_Ok in N. destruct N as [C _].
  apply check_all_Ok in C. destruct C as [F _]. rewrite <- K in F.
  destruct (sorted_single_chars t F) as [body B]. congruence.
Qed.

(** X2, when a run finishes, by its table.  A run finishes exactly when
    the file reads, every character stored is one code point, no lookup
    of the diagnostics raises, and the table is not empty in case
    [chinese_variants] is imported. *)
Theorem finishes_iff lines :
  (exists out, improve_quick5 lines = Finished out) <->
  (exists st,
      read_lines reader_init lines = Ok st
      /\ Forall (fun k : key => exists c, snd k = [c]) (keys (tbl st))
      /\ Forall (fun k : key => variants_diagnostics k = Ok tt) (keys (tbl st))
      /\ (diagnostics_off \/ tbl st <> [])).
Proof.
  split.
  - intros [out H]. apply improve_quick5_Finished in H.
    destruct H as [st [t [body [R [N [V _]]]]]].
    exists st. split; [exact R|].
    pose proof (normalize_keys _ _ N) as K.
    apply normalize_Ok in N. destruct N as [C _].
    apply check_all_Ok in C. destruct C as [F Q].
    repeat split; auto.
    unfold report_variants, diagnostics_off in *.
    destruct (IMPORT_CHINESE_VARIANTS_SUCCESSFUL env); [right|now left].
    intros Z. rewrite Z in K. apply keys_nil in K. subst t. discriminate V.
  - intros [st [R [F [Q E]]]]. exact (finishes_of_read lines st R F Q E).
Qed.

(** X3, what a failed run failed on.  Reading raises [ValueError] only;
    the loop at line 126 raises [TypeError] on a stored character that
    is not one code point, or lets an exception of the diagnostics
    through; line 172 raises [UnboundLocalError] when [chinese_variants]
    is imported and the table is empty. *)
Theorem crash_causes lines e ws :
  improve_quick5 lines = Crashed e ws ->
  (e = ValueError /\ read_lines reader_init lines = Raise ValueError)
  \/ exists st,
      read_lines reader_init lines = Ok st
      /\ ((e = TypeError
           /\ exists k, In k (keys (tbl st)) /\ length (snd k) <> 1%nat)
          \/ (e = LookupFailed
              /\ IMPORT_CHINESE_VARIANTS_SUCCESSFUL env = true
              /\ exists k, In k (keys (tbl st))
                           /\ variants_lookup_raises env k = true)
          \/ (e = UnboundLocalError
              /\ IMPORT_CHINESE_VARIANTS_SUCCESSFUL env = true
              /\ tbl st = [])).
Proof.
  unfold improve_quick5.
  destruct (read_lines reader_init lines) as [st|e0] eqn:R.
  2:{ intros [= <- <-]. left. pose proof (read_lines_Raise _ _ _ R). subst.
      auto. }
  destruct (normalize (tbl st)) as [t|e0] eqn:N.
  2:{ intros [= <- <-]. right. exists st. split; auto.
      unfold normalize in N. rewrite visit_all_check in N.
      destruct (check_all (keys (tbl st))) as [[]|e1] eqn:C; simpl in N;
        [discriminate|].
      inversion N; subst. apply check_all_Raise in C.
      destruct C as [C|C]; [left|right; left]; exact C. }
  destruct (report_variants t) as [[]|e0] eqn:V.
  2:{ intros [= <- <-]. right. exists st. split; auto. right. right.
      pose proof (normalize_keys _ _ N) as K.
      unfold report_variants in V.
      destruct (IMPORT_CHINESE_VARIANTS_SUCCESSFUL env); [|discriminate].
      destruct t; [|discriminate]. inversion V. repeat split; auto.
      apply keys_nil. now rewrite <- K. }
  destruct (sorted t) as [body|e0] eqn:S; [discriminate|].
  exfalso. exact (output_never_partial_aux lines st t e0 R N S).
Qed.

(** ** What the normalizer does not touch *)

Lemma same_or_900_refl x : same_or_900 x x.
Proof. unfold same_or_900. auto. Qed.

Lemma same_or_900_trans x y z :
  same_or_900 x y -> same_or_900 y z -> same_or_900 x z.
Proof.
  unfold same_or_900. intros [K1 [C1 W1]] [K2 [C2 W2]].
  repeat split; try congruence.
  destruct W2 as [W2|W2]; [|now right].
  destruct W1 as [W1|W1]; [left|right]; congruence.
Qed.

Lemma Forall2_same_or_900_refl t : Forall2 same_or_900 t t.
Proof. induction t; constructor; auto using same_or_900_refl. Qed.

Lemma Forall2_same_or_900_trans t1 : forall t2 t3,
  Forall2 same_or_900 t1 t2 -> Forall2 same_or_900 t2 t3 ->
  Forall2 same_or_900 t1 t3.
Proof.
  induction t1 as [|x t1 IH]; intros t2 t3 H12 H23;
    inversion H12; subst; inversion H23; subst; constructor.
  - eapply same_or_900_trans; eauto.
  - eapply IH; eauto.
Qed.

Lemma set_weight_same_or_900 k t :
  Forall2 same_or_900 t (set_weight k 900 t).
Proof.
  induction t as [|[k' v] t IH]; simpl; [constructor|].
  destruct (key_eq_dec k k').
  - constructor; [|apply Forall2_same_or_900_refl].
    unfold same_or_900. simpl. auto.
  - constructor; [apply same_or_900_refl|exact IH].
Qed.

Lemma demote_same_or_900 t k : Forall2 same_or_900 t (demote t k).
Proof.
  unfold demote. destruct (mem k t).
  - apply set_weight_same_or_900.
  - apply Forall2_same_or_900_refl.
Qed.

Lemma demote_all_same_or_900 ks : forall t,
  Forall2 same_or_900 t (fold_left demote ks t).
Proof.
  induction ks as [|k ks IH]; intros t; simpl.
  - apply Forall2_same_or_900_refl.
  - eapply Forall2_same_or_900_trans; [apply demote_same_or_900|apply IH].
Qed.

(** X4, the normalizer changes weights only, and only to 900: item by
    item, in the order of the store, the key and the comment are the old
    ones and the weight is the old one or 900. *)
Theorem normalize_changes_weights_only t t' :
  normalize t = Ok t' -> Forall2 same_or_900 t t'.
Proof.
  intros N. apply normalize_Ok in N. destruct N as [_ ->].
  apply demote_all_same_or_900.
Qed.

(** ** The written records, end to end *)

Lemma lookup_In k t v : lookup k t = Some v -> In (k, v) t.
Proof.
  induction t as [|[k' v'] t IH]; simpl; [discriminate|].
  destruct (key_eq_dec k k'); [intros [= ->]; subst; now left|auto].
Qed.

Lemma In_lookup k t v : NoDup (keys t) -> In (k, v) t -> lookup k t = Some v.
Proof.
  induction t as [|[k' v'] t IH]; simpl; intros N I; [destruct I|].
  inversion N as [|? ? Nk Nt]; subst.
  destruct (key_eq_dec k k') as [->|D].
  - destruct I as [E|I]; [now inversion E|].
    exfalso. apply Nk. unfold keys. change k' with (fst (k', v)).
    now apply in_map.
  - destruct I as [E|I]; [inversion E; congruence|auto].
Qed.

Lemma max_weight_In k es :
  max_weight k es <> None <-> In k (map entry_key es).
Proof.
  induction es as [|[[k' w] c] es IH]; simpl; [tauto|].
  unfold entry_key at 1. simpl.
  destruct (key_eq_dec k k') as [->|D].
  - split; [auto|discriminate].
  - rewrite IH. split; [auto|]. intros [E|I]; [congruence|assumption].
Qed.

Lemma keys_upsert_all_iff es k :
  In k (keys (fold_left upsert es [])) <-> In k (map entry_key es).
Proof.
  split.
  - intros H. apply keys_upsert_all_from in H. destruct H as [[]|H]. exact H.
  - intros H. apply max_weight_In in H.
    destruct (lookup k (fold_left upsert es [])) as [v|] eqn:L.
    + now apply lookup_Some_keys in L.
    + exfalso. apply H. rewrite <- merged_weight, L. reflexivity.
Qed.

Lemma has_x_record_x_sibling es c :
  has_x_record (fold_left upsert es []) c <-> x_sibling es c.
Proof.
  unfold has_x_record, x_sibling.
  split; intros [input [I S]]; exists input; split; auto;
    now apply keys_upsert_all_iff.
Qed.

(** The store after reading and normalizing, key by key. *)
Lemma lookup_normalized es t k v :
  normalize (fold_left upsert es []) = Ok t ->
  (lookup k t = Some v <->
   exists m c,
     max_weight k es = Some m /\ first_comment k es = Some c
     /\ comment v = c
     /\ ((demoted es k /\ weight v = 900)
         \/ (~ demoted es k /\ weight v = m))).
Proof.
  intros N. apply normalize_Ok in N. destruct N as [_ ->].
  set (t0 := fold_left upsert es []).
  assert (T : In k (flat_map targets_of (keys t0)) <-> demoted es k).
  { destruct k as [input c]. rewrite in_all_targets. unfold demoted. simpl.
    unfold t0. rewrite has_x_record_x_sibling, is_variant_input_spec. tauto. }
  assert (L0 : lookup k t0 =
               match max_weight k es, first_comment k es with
               | Some m, Some c => Some {| weight := m; comment := c |}
               | _, _ => None
               end).
  { unfold t0. now rewrite lookup_upsert_all. }
  destruct (in_dec key_eq_dec k (flat_map targets_of (keys t0))) as [I|I].
  - rewrite lookup_demote_all_in by assumption. rewrite L0.
    destruct (max_weight k es) as [m|]; destruct (first_comment k es) as [c|];
      simpl; split;
      try (intros H; discriminate H);
      try (intros [m' [c' [H1 [H2 _]]]]; discriminate).
    + intros [= <-]. exists m, c. simpl. repeat split; auto.
      left. split; [now apply T|reflexivity].
    + intros [m' [c' [H1 [H2 [H3 [[_ H4]|[H4 _]]]]]]].
      * inversion H1; inversion H2; subst. destruct v; simpl in *.
        now subst.
      * exfalso. apply H4. now apply T.
  - rewrite lookup_demote_all_out by assumption. rewrite L0.
    destruct (max_weight k es) as [m|]; destruct (first_comment k es) as [c|];
      simpl; split;
      try (intros H; discriminate H);
      try (intros [m' [c' [H1 [H2 _]]]]; discriminate).
    + intros [= <-]. exists m, c. simpl. repeat split; auto.
      right. split; [|reflexivity]. intros D. apply I. now apply T.
    + intros [m' [c' [H1 [H2 [H3 [[H4 _]|[_ H4]]]]]]].
      * exfalso. apply I. now apply T.
      * inversion H1; inversion H2; subst. destruct v; simpl in *.
        now subst.
Qed.

(** X5, the written records, end to end.  Between the header with its
    canonical begin line and the unchanged trailer stand the formatted
    records, one per key of the region: the comment is that of the first
    line with the key, and the weight is 900 if the input is one or two
    letters of the alphabet and some line spells the same character with
    an input starting with [x], else the largest weight of the lines
    with the key. *)
Theorem written_records pre b region post out :
  Forall (fun line => is_begin line = false) pre ->
  is_begin b = true ->
  Forall (fun line => is_end line = false) region ->
  starts_with_end post ->
  improve_quick5 (pre ++ b :: region ++ post) = Finished out ->
  exists es body,
    parse_all region = Ok es
    /\ out = pre ++ [BEGIN_TABLE_line] ++ map format_item body ++ post
    /\ NoDup (keys body)
    /\ forall k v,
        In (k, v) body <->
        exists m c,
          max_weight k es = Some m /\ first_comment k es = Some c
          /\ comment v = c
          /\ ((demoted es k /\ weight v = 900)
              \/ (~ demoted es k /\ weight v = m)).
Proof.
  intros Fp Hb Fr He H.
  destruct (read_lines_regions pre b region post Fp Hb Fr He) as [rt E].
  apply improve_quick5_Finished in H.
  destruct H as [st [t [body [R [N [_ [S ->]]]]]]].
  rewrite E, read_table_lines_parse in R.
  destruct (parse_all region) as [es|]; simpl in R; [|discriminate].
  inversion R; subst; clear R. simpl in *.
  exists es, body. split; [reflexivity|].
  split; [now rewrite <- app_assoc|].
  assert (Nt : NoDup (keys t)).
  { rewrite (normalize_keys _ _ N). apply NoDup_upsert_all. constructor. }
  assert (P := sorted_perm t body S).
  split.
  - unfold keys. eapply Permutation_NoDup; [|exact Nt].
    apply Permutation_map. now apply Permutation_sym.
  - intros k v. rewrite <- (lookup_normalized es t k v N). split.
    + intros I. apply In_lookup; auto. eapply Permutation_in; eauto.
    + intros L. apply lookup_In in L.
      apply (Permutation_in _ (Permutation_sym P) L).
Qed.

(** ** The body depends on the region only *)

(** X6, the body depends on the region only.  Header, trailer and the
    text on the marker line have no influence on the table body: the
    same region between other lines gives the same body, and the run
    finishes on one file as on the other. *)
Theorem body_depends_on_region_only pre b post pre' b' post' region out :
  Forall (fun line => is_begin line = false) pre ->
  is_begin b = true ->
  starts_with_end post ->
  Forall (fun line => is_begin line = false) pre' ->
  is_begin b' = true ->
  starts_with_end post' ->
  Forall (fun line => is_end line = false) region ->
  improve_quick5 (pre ++ b :: region ++ post) = Finished out ->
  exists body,
    out = pre ++ [BEGIN_TABLE_line] ++ body ++ post
    /\ improve_quick5 (pre' ++ b' :: region ++ post')
       = Finished (pre' ++ [BEGIN_TABLE_line] ++ body ++ post').
Proof.
  intros Fp Hb He Fp' Hb' He' Fr.
  destruct (read_lines_regions pre b region post Fp Hb Fr He) as [rt E].
  destruct (read_lines_regions pre' b' region post' Fp' Hb' Fr He')
    as [rt' E'].
  unfold improve_quick5. rewrite E, E'.
  destruct (read_table_lines [] region) as [t0|]; simpl; [|discriminate].
  destruct (normalize t0) as [t|]; [|discriminate].
  destruct (report_variants t) as [[]|]; [|discriminate].
  destruct (sorted t) as [body|]; [|discriminate].
  intros [= <-]. exists (map format_item body).
  now rewrite <- !app_assoc.
Qed.

(** ** Strings: [split], [strip] and the decimal form of a weight *)

Lemma split_nonempty sep s : split sep s <> [].
Proof.
  destruct s as [|c s]; simpl; [discriminate|].
  destruct (N.eqb c sep); [discriminate|].
  destruct (split sep s); discriminate.
Qed.

Lemma join_cons sep f fs :
  fs <> [] -> join sep (f :: fs) = f ++ sep :: join sep fs.
Proof. destruct fs; [contradiction|reflexivity]. Qed.

(** Joining the fields with the separator gives the string back. *)
Lemma join_split sep s : join sep (split sep s) = s.
Proof.
  induction s as [|c s IH]; [reflexivity|].
  cbn [split]. destruct (N.eqb_spec c sep) as [->|D].
  - rewrite join_cons by apply split_nonempty. now rewrite IH.
  - destruct (split sep s) as [|f fs] eqn:E.
    + now destruct (split_nonempty sep s).
    + destruct fs as [|g fs].
      * simpl in *. now rewrite IH.
      * cbn [join] in *. rewrite <- IH. reflexivity.
Qed.

(** No field holds the separator. *)
Lemma split_sep_free sep s f : In f (split sep s) -> ~ In sep f.
Proof.
  revert f. induction s as [|c s IH]; intros f; cbn [split].
  - intros [<-|[]]. intros [].
  - destruct (N.eqb_spec c sep) as [->|D].
    + intros [<-|I]; [intros []|now apply IH].
    + destruct (split sep s) as [|g gs] eqn:E.
      * intros [<-|[]]. intros [H|[]]. congruence.
      * intros [<-|I].
        -- intros [H|H]; [congruence|]. apply (IH g); [now left|assumption].
        -- apply IH. now right.
Qed.

Lemma split_whole sep a : ~ In sep a -> split sep a = [a].
Proof.
  induction a as [|c a IH]; intros N; [reflexivity|]. cbn [split].
  destruct (N.eqb_spec c sep) as [->|D]; [exfalso; apply N; now left|].
  rewrite IH; [reflexivity|]. intros I. apply N. now right.
Qed.

Lemma split_app_sep sep a r :
  ~ In sep a -> split sep (a ++ sep :: r) = a :: split sep r.
Proof.
  induction a as [|c a IH]; intros N.
  - cbn [app split]. now rewrite N.eqb_refl.
  - cbn [app split].
    destruct (N.eqb_spec c sep) as [->|D]; [exfalso; apply N; now left|].
    rewrite IH; [reflexivity|]. intros I. apply N. now right.
Qed.

Lemma lstrip_suffix s : exists p, s = p ++ lstrip s.
Proof.
  induction s as [|c s [p IH]]; simpl.
  - now exists [].
  - destruct (isspace c).
    + exists (c :: p). simpl. now rewrite <- IH.
    + now exists [].
Qed.

Lemma lstrip_head s a r : lstrip s = a :: r -> isspace a = false.
Proof.
  induction s as [|c s IH]; simpl; [discriminate|].
  destruct (isspace c) eqn:E; [exact IH|]. now intros [= <- _].
Qed.

Lemma lstrip_fixed a r : isspace a = false -> lstrip (a :: r) = a :: r.
Proof. intros H. simpl. now rewrite H. Qed.

(** What [strip] returns starts and ends with a character that is not
    whitespace. *)
Lemma strip_head s a r : strip s = a :: r -> isspace a = false.
Proof.
  unfold strip, rstrip. intros H.
  destruct (lstrip_suffix (rev (lstrip s))) as [p E].
  apply (f_equal (@rev char)) in E. rewrite rev_involutive, rev_app_distr in E.
  rewrite H in E. simpl in E. now apply lstrip_head in E.
Qed.

Lemma strip_last s r z : strip s = r ++ [z] -> isspace z = false.
Proof.
  unfold strip, rstrip. intros H.
  apply (f_equal (@rev char)) in H. rewrite rev_involutive, rev_app_distr in H.
  simpl in H. now apply lstrip_head in H.
Qed.

(** A line that is clean at both ends, with its newline, strips to itself. *)
Lemma strip_line body :
  starts_clean body -> ends_clean body -> strip (body ++ [NL]) = body.
Proof.
  intros [a [r [-> Ha]]] [r' [z [E Hz]]].
  unfold strip, rstrip.
  change ((a :: r) ++ [NL]) with (a :: (r ++ [NL])).
  rewrite (lstrip_fixed a _ Ha).
  change (a :: r ++ [NL]) with ((a :: r) ++ [NL]).
  rewrite E, rev_app_distr. cbn [rev app lstrip].
  replace (isspace NL) with true by reflexivity.
  rewrite rev_app_distr. cbn [rev app].
  rewrite (lstrip_fixed z _ Hz).
  change (z :: rev r') with ([z] ++ rev r').
  rewrite rev_app_distr, rev_involutive. reflexivity.
Qed.

Lemma starts_clean_app f g : starts_clean f -> starts_clean (f ++ g).
Proof. intros [a [r [-> H]]]. exists a, (r ++ g). auto. Qed.

Lemma ends_clean_app f g : ends_clean g -> ends_clean (f ++ g).
Proof.
  intros [r [z [-> H]]]. exists (f ++ r), z. now rewrite app_assoc.
Qed.

Lemma string_of_uint_digits d :
  Forall is_digit (lit (NilEmpty.string_of_uint d)).
Proof.
  unfold lit, is_digit.
  induction d; simpl; constructor; try assumption; simpl; lia.
Qed.

Lemma string_of_uint_nonempty d :
  d <> Decimal.Nil -> lit (NilEmpty.string_of_uint d) <> [].
Proof. destruct d; simpl; [congruence| | | | | | | | | |]; discriminate. Qed.

Lemma to_int_digits z :
  exists sign ds,
    str_of_int z = sign ++ ds /\ ds <> [] /\ Forall is_digit ds
    /\ (sign = [] \/ sign = [45%N]).
Proof.
  unfold str_of_int. destruct z as [|p|p]; simpl.
  - exists [], [48%N]. repeat split; auto; try discriminate.
    constructor; [unfold is_digit; lia|constructor].
  - exists [], (lit (NilEmpty.string_of_uint (Pos.to_uint p))).
    repeat split; auto.
    + apply string_of_uint_nonempty, DecimalPos.Unsigned.to_uint_nonnil.
    + apply string_of_uint_digits.
  - exists [45%N], (lit (NilEmpty.string_of_uint (Pos.to_uint p))).
    repeat split; auto.
    + apply string_of_uint_nonempty, DecimalPos.Unsigned.to_uint_nonnil.
    + apply string_of_uint_digits.
Qed.

Lemma is_digit_not_space c : is_digit c -> isspace c = false.
Proof.
  unfold is_digit, isspace. intros [L U].
  repeat match goal with
         | |- context [(?a <=? ?b)%N] => destruct (N.leb_spec a b); try lia
         | |- context [(?a =? ?b)%N] => destruct (N.eqb_spec a b); try lia
         end; reflexivity.
Qed.

Lemma str_of_int_tab_free z : tab_free (str_of_int z).
Proof.
  destruct (to_int_digits z) as [sign [ds [-> [_ [F S]]]]].
  unfold tab_free. rewrite in_app_iff. intros [I|I].
  - destruct S as [-> | ->]; [destruct I|]. destruct I as [E|[]]. discriminate E.
  - rewrite Forall_forall in F. apply F in I. unfold is_digit, TAB in I. lia.
Qed.

Lemma str_of_int_ends_clean z : ends_clean (str_of_int z).
Proof.
  destruct (to_int_digits z) as [sign [ds [-> [N [F _]]]]].
  apply ends_clean_app.
  destruct (exists_last N) as [r [d ->]]. exists r, d. split; auto.
  apply is_digit_not_space. rewrite Forall_forall in F. apply F.
  apply in_or_app. right. now left.
Qed.

(** ** The fields that reach the table, and the lines written from them *)

Lemma isspace_TAB : isspace TAB = true.
Proof. reflexivity. Qed.

Lemma fields_clean line i c w cm z :
  fields line = Ok (i, c, w, cm) ->
  clean ((i, c), {| weight := z; comment := cm |}).
Proof.
  unfold fields, clean. cbn [fst snd comment].
  pose proof (join_split TAB (strip line)) as J.
  pose proof (split_sep_free TAB (strip line)) as T.
  assert (S0 : forall f r, strip line = f ++ r -> f <> [] -> starts_clean f).
  { intros f r E N. destruct f as [|a f']; [contradiction|].
    exists a, f'. split; auto. simpl in E. now apply strip_head in E. }
  destruct (split TAB (strip line)) as [|f0 [|f1 [|f2 [|f3 [|f4 fs]]]]];
    simpl; try discriminate; intros [= <- <- <- <-]; cbn [join] in J.
  - assert (N0 : f0 <> []).
    { intros ->. simpl in J. symmetry in J. apply strip_head in J.
      rewrite isspace_TAB in J. discriminate. }
    repeat split.
    + symmetry in J. apply (S0 _ _ J); auto.
    + apply T. now left.
    + apply T. right. now left.
    + intros [].
    + now left.
  - assert (N0 : f0 <> []).
    { intros ->. simpl in J. symmetry in J. apply strip_head in J.
      rewrite isspace_TAB in J. discriminate. }
    repeat split.
    + symmetry in J. apply (S0 _ _ J); auto.
    + apply T. now left.
    + apply T. right. now left.
    + apply T. right. right. right. now left.
    + destruct f3 as [|a f3']; [now left|right].
      assert (Ne : a :: f3' <> []) by discriminate.
      destruct (exists_last Ne) as [r [z' E]]. exists r, z'. split; auto.
      rewrite E in J. symmetry in J.
      replace (f0 ++ TAB :: f1 ++ TAB :: f2 ++ TAB :: r ++ [z'])
        with ((f0 ++ TAB :: f1 ++ TAB :: f2 ++ TAB :: r) ++ [z']) in J.
      * now apply strip_last in J.
      * rewrite <- !app_assoc. simpl. rewrite <- !app_assoc. simpl.
        rewrite <- !app_assoc. reflexivity.
Qed.

Lemma parse_line_clean line k w cm :
  parse_line line = Ok (k, w, cm) ->
  clean (k, {| weight := w; comment := cm |}).
Proof.
  unfold parse_line.
  destruct (fields line) as [[[[i c] wf] cf]|] eqn:F; simpl; [|discriminate].
  destruct (int_of wf); simpl; [|discriminate].
  intros [= <- <- <-]. now apply (fields_clean line i c wf cf).
Qed.

Lemma clean_set_weight k w t :
  Forall clean t -> Forall clean (set_weight k w t).
Proof.
  induction 1 as [|[k' v] t C F IH]; simpl; [constructor|].
  destruct (key_eq_dec k k'); constructor; auto.
Qed.

Lemma clean_setitem k v t :
  Forall clean t -> clean (k, v) -> Forall clean (setitem k v t).
Proof.
  induction 1 as [|[k' v'] t C F IH]; simpl; intros Cv.
  - constructor; [assumption|constructor].
  - destruct (key_eq_dec k k') as [->|D]; constructor; auto.
Qed.

Lemma clean_upsert t k w cm :
  Forall clean t -> clean (k, {| weight := w; comment := cm |}) ->
  Forall clean (upsert t (k, w, cm)).
Proof.
  intros F C. unfold upsert. destruct (lookup k t).
  - now apply clean_set_weight.
  - now apply clean_setitem.
Qed.

Lemma read_line_clean st line st' :
  read_line st line = Ok st' ->
  Forall clean (tbl st) -> Forall clean (tbl st').
Proof.
  unfold read_line.
  destruct (reading_head st && negb (startswith line BEGIN_TABLE)).
  { now intros [= <-]. }
  destruct (reading_head st). { now intros [= <-]. }
  destruct (reading_table st && negb (startswith line END_TABLE)).
  2:{ now intros [= <-]. }
  rewrite read_table_line_parse.
  destruct (parse_line line) as [[[k w] cm]|] eqn:P; simpl; [|discriminate].
  intros [= <-]. simpl. intros F. apply clean_upsert; auto.
  now apply parse_line_clean with line.
Qed.

Lemma read_lines_clean lines : forall st st',
  read_lines st lines = Ok st' ->
  Forall clean (tbl st) -> Forall clean (tbl st').
Proof.
  induction lines as [|l lines IH]; simpl; intros st st'.
  - now intros [= <-].
  - destruct (read_line st l) as [st1|] eqn:E; simpl; [|discriminate].
    intros H N. eapply IH; eauto. eapply read_line_clean; eauto.
Qed.

Lemma stored_items_clean_aux lines st :
  read_lines reader_init lines = Ok st -> Forall clean (tbl st).
Proof.
  intros R. apply (read_lines_clean lines reader_init st R). constructor.
Qed.

(** X7, an invariant of the reader.  Every item of the table has an
    input that is not empty and does not start with whitespace; neither
    input nor character nor comment holds a tab; a comment that is not
    empty does not end with whitespace. *)
Theorem stored_items_clean lines st :
  read_lines reader_init lines = Ok st -> Forall clean (tbl st).
Proof. apply stored_items_clean_aux. Qed.

Lemma same_or_900_clean x x' : same_or_900 x x' -> clean x -> clean x'.
Proof.
  unfold same_or_900, clean. intros [K [C _]]. rewrite K, C. auto.
Qed.

Lemma Forall2_same_or_900_clean t t' :
  Forall2 same_or_900 t t' -> Forall clean t -> Forall clean t'.
Proof.
  induction 1 as [|x x' t t' S F2 IH]; intros F; [constructor|].
  inversion F; subst. constructor; eauto using same_or_900_clean.
Qed.

(** Writing a clean item and splitting the line again gives its fields. *)
Lemma clean_reads_back x : clean x -> reads_back x.
Proof.
  destruct x as [[i c] [w cm]]. unfold clean, reads_back.
  cbn [fst snd comment weight].
  intros [Si [Ti [Tc [Tm Em]]]].
  pose proof (str_of_int_tab_free w) as Tw.
  pose proof (str_of_int_ends_clean w) as Ew.
  unfold format_item. cbn [comment weight].
  destruct cm as [|a cm'].
  - assert (L : i ++ [TAB] ++ c ++ [TAB] ++ str_of_int w ++ [NL]
                = (i ++ TAB :: c ++ TAB :: str_of_int w) ++ [NL]).
    { rewrite <- !app_assoc. simpl. rewrite <- !app_assoc. reflexivity. }
    rewrite L. unfold fields. rewrite strip_line.
    + rewrite (split_app_sep TAB i _ Ti), (split_app_sep TAB c _ Tc),
        (split_whole TAB _ Tw). reflexivity.
    + now apply starts_clean_app.
    + apply ends_clean_app.
      change (TAB :: c ++ TAB :: str_of_int w)
        with ((TAB :: c) ++ TAB :: str_of_int w).
      apply ends_clean_app.
      change (TAB :: str_of_int w) with ([TAB] ++ str_of_int w).
      now apply ends_clean_app.
  - destruct Em as [Em|Em]; [discriminate|].
    assert (L : i ++ [TAB] ++ c ++ [TAB] ++ str_of_int w ++ [TAB]
                  ++ (a :: cm') ++ [NL]
                = (i ++ TAB :: c ++ TAB :: str_of_int w ++ TAB :: a :: cm')
                    ++ [NL]).
    { rewrite <- !app_assoc. simpl. rewrite <- !app_assoc. simpl.
      rewrite <- !app_assoc. reflexivity. }
    rewrite L. unfold fields. rewrite strip_line.
    + rewrite (split_app_sep TAB i _ Ti), (split_app_sep TAB c _ Tc),
        (split_app_sep TAB _ _ Tw), (split_whole TAB _ Tm). reflexivity.
    + now apply starts_clean_app.
    + apply ends_clean_app.
      change (TAB :: c ++ TAB :: str_of_int w ++ TAB :: a :: cm')
        with ((TAB :: c) ++ TAB :: str_of_int w ++ TAB :: a :: cm').
      apply ends_clean_app.
      change (TAB :: str_of_int w ++ TAB :: a :: cm')
        with ((TAB :: str_of_int w) ++ TAB :: a :: cm').
      apply ends_clean_app.
      change (TAB :: a :: cm') with ([TAB] ++ a :: cm').
      now apply ends_clean_app.
Qed.

(** X8, written lines read back.  The lines of the body are well-formed
    table lines: each of them, stripped and split on tabs as the reader
    does, gives the input, the character, the weight in decimal and the
    comment it was written from. *)
Theorem written_lines_read_back lines out :
  improve_quick5 lines = Finished out ->
  exists st body,
    read_lines reader_init lines = Ok st
    /\ out = head st ++ map format_item body ++ tail st
    /\ Forall reads_back body.
Proof.
  intros H. apply improve_quick5_Finished in H.
  destruct H as [st [t [body [R [N [_ [S ->]]]]]]].
  exists st, body. repeat split; auto.
  assert (Ct : Forall clean t).
  { apply normalize_Ok in N. destruct N as [_ ->].
    eapply Forall2_same_or_900_clean; [apply demote_all_same_or_900|].
    apply (read_lines_clean lines reader_init st R). constructor. }
  rewrite Forall_forall in *. intros x Hx. apply clean_reads_back, Ct.
  eapply Permutation_in; [apply (sorted_perm t body S)|exact Hx].
Qed.

(** ** Running the tool on its own output *)

(** Every file is all header, or is cut by its first begin line and the
    first end line after it. *)
Lemma cut_at_end rest :
  exists region post,
    rest = region ++ post
    /\ Forall (fun line => is_end line = false) region
    /\ starts_with_end post.
Proof.
  induction rest as [|l rest [region [post [E [F S]]]]].
  - exists [], []. repeat split; auto.
  - destruct (is_end l) eqn:L.
    + exists [], (l :: rest). repeat split; auto.
    + exists (l :: region), post. subst. repeat split; auto.
Qed.

Lemma cut_at_markers lines :
  Forall (fun line => is_begin line = false) lines
  \/ exists pre b region post,
      lines = pre ++ b :: region ++ post
      /\ Forall (fun line => is_begin line = false) pre
      /\ is_begin b = true
      /\ Forall (fun line => is_end line = false) region
      /\ starts_with_end post.
Proof.
  induction lines as [|l lines IH].
  - left. constructor.
  - destruct (is_begin l) eqn:L.
    + right. destruct (cut_at_end lines) as [region [post [E [F S]]]].
      exists [], l, region, post. subst. repeat split; auto.
    + destruct IH as [F|[pre [b [region [post [E [Fp [Hb [Fr He]]]]]]]]].
      * left. now constructor.
      * right. exists (l :: pre), b, region, post. subst.
        repeat split; auto.
Qed.

Lemma parse_line_format x :
  clean x -> weight_reads_back x ->
  parse_line (format_item x) = Ok (to_entry x).
Proof.
  intros C W. apply clean_reads_back in C. unfold reads_back in C.
  unfold parse_line. rewrite C. cbn [bind]. unfold int_of.
  unfold weight_reads_back in W. rewrite W. now destruct x as [[i c] v].
Qed.

Lemma parse_all_format body :
  Forall clean body -> Forall weight_reads_back body ->
  parse_all (map format_item body) = Ok (map to_entry body).
Proof.
  induction 1 as [|x body C F IH]; intros W; [reflexivity|].
  inversion W; subst. cbn [map parse_all].
  rewrite parse_line_format by assumption. cbn [bind].
  rewrite IH by assumption. reflexivity.
Qed.

Lemma upsert_new t k w c :
  lookup k t = None ->
  upsert t (k, w, c) = t ++ [(k, {| weight := w; comment := c |})].
Proof.
  intros L. unfold upsert. rewrite L. now apply keys_setitem_new.
Qed.

(** Items with pairwise different keys go into the table as they come. *)
Lemma upsert_fresh_all l : forall t0,
  NoDup (keys (t0 ++ l)) ->
  fold_left upsert (map to_entry l) t0 = t0 ++ l.
Proof.
  induction l as [|[k [w c]] l IH]; intros t0 N; cbn [map fold_left].
  - now rewrite app_nil_r.
  - assert (L : lookup k t0 = None).
    { apply lookup_None_keys. intros I. unfold keys in N.
      rewrite map_app in N. cbn [map fst] in N.
      apply NoDup_remove_2 in N. apply N. apply in_or_app. now left. }
    change (to_entry (k, {| weight := w; comment := c |})) with (k, w, c).
    rewrite (upsert_new t0 k w c L).
    rewrite IH; rewrite <- app_assoc; [reflexivity|exact N].
Qed.

Lemma read_table_lines_format body :
  Forall clean body -> Forall weight_reads_back body -> NoDup (keys body) ->
  read_table_lines [] (map format_item body) = Ok body.
Proof.
  intros C W N. rewrite read_table_lines_parse, parse_all_format by assumption.
  cbn [bind]. now rewrite (upsert_fresh_all body []).
Qed.

Lemma in_targets_perm ks ks' k :
  (forall x, In x ks -> In x ks') ->
  In k (flat_map targets_of ks) -> In k (flat_map targets_of ks').
Proof.
  intros S. rewrite !in_flat_map. intros [x [I T]]. exists x. auto.
Qed.

(** A permutation of a normalized table is a fixed point of the
    normalizer. *)
Lemma normalize_fixed t0 t body :
  normalize t0 = Ok t -> NoDup (keys t) -> Permutation body t ->
  normalize body = Ok body.
Proof.
  intros N Nt P. pose proof (normalize_keys _ _ N) as K.
  apply normalize_Ok in N. destruct N as [C E].
  assert (Pk : Permutation (keys body) (keys t0)).
  { rewrite <- K. unfold keys. now apply Permutation_map. }
  unfold normalize. rewrite visit_all_check.
  apply check_all_Ok in C. destruct C as [F Q].
  rewrite check_all_pass.
  - cbn [bind]. f_equal. apply demote_all_fixed. intros k v I L.
    apply (in_targets_perm _ (keys t0)) in I;
      [|intros x; apply Permutation_in; exact Pk].
    apply lookup_In in L. apply (Permutation_in _ P) in L.
    apply (In_lookup _ _ _ Nt) in L. subst t.
    rewrite lookup_demote_all_in in L by assumption.
    destruct (lookup k t0); simpl in L; [|discriminate]. now inversion L.
  - rewrite Forall_forall in *. intros k Hk. apply F.
    apply (Permutation_in _ Pk Hk).
  - rewrite Forall_forall in *. intros k Hk. apply Q.
    apply (Permutation_in _ Pk Hk).
Qed.

Lemma report_variants_perm t body :
  Permutation body t -> report_variants t = Ok tt ->
  report_variants body = Ok tt.
Proof.
  unfold report_variants.
  destruct (IMPORT_CHINESE_VARIANTS_SUCCESSFUL env); auto.
  intros P. destruct t; [discriminate|]. intros _.
  destruct body; [|reflexivity].
  apply Permutation_nil in P. discriminate P.
Qed.

(** X9, the output is a fixed point of the tool.  If a run finishes,
    none of its body lines starts with the end marker, and [int] reads
    the written weights back, then running the tool on the output writes
    the same output again. *)
Theorem output_is_fixed_point lines st t out :
  read_lines reader_init lines = Ok st ->
  normalize (tbl st) = Ok t ->
  improve_quick5 lines = Finished out ->
  Forall (fun x => is_end (format_item x) = false) t ->
  Forall weight_reads_back t ->
  improve_quick5 out = Finished out.
Proof.
  intros R N H En Wt.
  destruct (cut_at_markers lines)
    as [F|[pre [b [region [post [E [Fp [Hb [Fr He]]]]]]]]].
  - (* all header: the output is the input *)
    rewrite (read_no_marker lines F) in R. inversion R; subst st; clear R.
    revert H. unfold improve_quick5. rewrite (read_no_marker lines F).
    cbn [tbl head tail]. cbn [tbl] in N. rewrite N.
    destruct (report_variants t) as [[]|] eqn:V; [|discriminate].
    destruct (sorted t) as [body|] eqn:S; [|discriminate].
    intros [= <-].
    assert (t = []) by (now inversion N). subst t.
    inversion S; subst body. cbn [map app]. rewrite app_nil_r.
    rewrite (read_no_marker lines F). cbn [tbl head tail].
    rewrite N, V. cbn [sorted decorate bind sort_by_key map app].
    now rewrite app_nil_r.
  - subst lines.
    destruct (read_lines_regions pre b region post Fp Hb Fr He) as [rt E].
    rewrite E in R.
    destruct (read_table_lines [] region) as [t0|] eqn:T0; simpl in R;
      [|discriminate].
    inversion R; subst st; clear R. cbn [tbl] in N.
    revert H. unfold improve_quick5. rewrite E. cbn [bind tbl head tail].
    rewrite N.
    destruct (report_variants t) as [[]|] eqn:V; [|discriminate].
    destruct (sorted t) as [body|] eqn:S; [|discriminate].
    intros [= <-].
    assert (P := sorted_perm t body S).
    assert (Nt : NoDup (keys t)).
    { rewrite (normalize_keys _ _ N).
      rewrite read_table_lines_parse in T0.
      destruct (parse_all region) as [es|]; simpl in T0; [|discriminate].
      inversion T0. apply NoDup_upsert_all. constructor. }
    assert (Nb : NoDup (keys body)).
    { unfold keys. eapply Permutation_NoDup; [|exact Nt].
      apply Permutation_map. now apply Permutation_sym. }
    assert (Ct : Forall clean t).
    { assert (C0 : Forall clean t0).
      { exact (stored_items_clean_aux _
                 {| head := pre ++ [BEGIN_TABLE_line]; tail := post;
                    tbl := t0; reading_head := false;
                    reading_table := rt |} E). }
      apply normalize_Ok in N. destruct N as [_ ->].
      eapply Forall2_same_or_900_clean; [apply demote_all_same_or_900|].
      exact C0. }
    assert (Cb : Forall clean body).
    { rewrite Forall_forall in *. intros x Hx. apply Ct.
      apply (Permutation_in _ P Hx). }
    assert (Wb : Forall weight_reads_back body).
    { rewrite Forall_forall in *. intros x Hx. apply Wt.
      apply (Permutation_in _ P Hx). }
    assert (Eb : Forall (fun line => is_end line = false)
                   (map format_item body)).
    { rewrite Forall_forall in *. intros l Hl.
      apply in_map_iff in Hl. destruct Hl as [x [<- Hx]]. apply En.
      apply (Permutation_in _ P Hx). }
    assert (Hm : is_begin BEGIN_TABLE_line = true) by reflexivity.
    destruct (read_lines_regions pre BEGIN_TABLE_line
                (map format_item body) post Fp Hm Eb He) as [rt' E'].
    replace ((pre ++ [BEGIN_TABLE_line]) ++ map format_item body ++ post)
      with (pre ++ BEGIN_TABLE_line :: map format_item body ++ post)
      by (now rewrite <- app_assoc).
    rewrite E', (read_table_lines_format body Cb Wb Nb).
    cbn [bind tbl head tail].
    rewrite (normalize_fixed _ _ _ N Nt P).
    rewrite (report_variants_perm _ _ P V).
    rewrite (sorted_again _ _ S). now rewrite <- app_assoc.
Qed.

(** ** The order of the lines of the region *)

Lemma item_lt_asym x y : item_lt x y -> item_lt y x -> False.
Proof.
  destruct x as [[ix cx] vx], y as [[iy cy] vy]. unfold item_lt, str_lt.
  intros [L1|[E1 R1]] [L2|[E2 R2]].
  - rewrite (str_compare_antisym ix iy), L1 in L2. discriminate L2.
  - subst. rewrite str_compare_refl in L1. discriminate L1.
  - subst. rewrite str_compare_refl in L2. discriminate L2.
  - destruct R1 as [W1|[W1 [px [py [Cx [Cy Lt1]]]]]];
      destruct R2 as [W2|[W2 [py' [px' [Cy' [Cx' Lt2]]]]]]; try lia.
    subst cx cy. inversion Cy'; inversion Cx'; subst. lia.
Qed.

(** Two strictly sorted lists with the same items are the same list. *)
Lemma strictly_sorted_unique l : forall l',
  StronglySorted item_lt l -> StronglySorted item_lt l' ->
  Permutation l l' -> l = l'.
Proof.
  induction l as [|x l IH]; intros l' S S' P.
  - apply Permutation_nil in P. now subst.
  - destruct l' as [|x' l'].
    { apply Permutation_sym, Permutation_nil in P. discriminate P. }
    inversion S as [|? ? Sl Fx]; subst. inversion S' as [|? ? Sl' Fx']; subst.
    assert (E : x = x').
    { assert (I : In x (x' :: l')) by (apply (Permutation_in _ P); now left).
      assert (I' : In x' (x :: l))
        by (apply (Permutation_in _ (Permutation_sym P)); now left).
      destruct I as [I|I]; [now subst|].
      destruct I' as [I'|I']; [now subst|].
      rewrite Forall_forall in Fx, Fx'.
      exfalso. apply (item_lt_asym x x'); auto. }
    subst x'. f_equal. apply IH; auto.
    now apply Permutation_cons_inv with x.
Qed.

Lemma decorate_single items d :
  decorate items = Ok d ->
  Forall (fun k : key => exists c, snd k = [c]) (keys items).
Proof.
  revert d. induction items as [|[[i c] v] items IH]; simpl; intros d;
    [constructor|].
  unfold sort_key_of. cbn [fst snd].
  destruct c as [|x [|y c]]; simpl; try discriminate.
  destruct (decorate items) as [d'|]; simpl; [|discriminate].
  intros _. constructor; [simpl; eauto|]. now apply (IH d').
Qed.

(** Sorting does not see the order of the table. *)
Lemma sorted_of_perm t t' body :
  NoDup (keys t) -> Permutation t t' ->
  sorted t = Ok body -> sorted t' = Ok body.
Proof.
  intros N P S.
  assert (N' : NoDup (keys t')).
  { unfold keys. eapply Permutation_NoDup; [|exact N].
    now apply Permutation_map. }
  assert (F' : Forall (fun k : key => exists c, snd k = [c]) (keys t')).
  { destruct (sorted_Ok _ _ S) as [d [D _]]. apply decorate_single in D.
    rewrite Forall_forall in *. intros k Hk. apply D.
    unfold keys in *. eapply Permutation_in; [|exact Hk].
    apply Permutation_map. now apply Permutation_sym. }
  destruct (sorted_single_chars t' F') as [body' S']. rewrite S'. f_equal.
  apply strictly_sorted_unique.
  - now apply (sorted_strict t').
  - now apply (sorted_strict t).
  - eapply Permutation_trans; [apply (sorted_perm _ _ S')|].
    eapply Permutation_trans; [apply Permutation_sym; exact P|].
    apply Permutation_sym. apply (sorted_perm _ _ S).
Qed.

Lemma parse_all_Forall2 region es :
  parse_all region = Ok es <->
  Forall2 (fun line e => parse_line line = Ok e) region es.
Proof.
  revert es. induction region as [|l region IH]; intros es; simpl.
  - split; [intros [= <-]; constructor|]. intros H. now inversion H.
  - destruct (parse_line l) as [e|] eqn:P; simpl.
    + destruct (parse_all region) as [es'|] eqn:Q; simpl.
      * split.
        -- intros [= <-]. constructor; auto. now apply IH.
        -- intros H. inversion H as [|? ? ? ? Pe F]; subst.
           apply IH in F. congruence.
      * split; [discriminate|]. intros H. inversion H as [|? ? ? ? Pe F]; subst.
        apply IH in F. discriminate F.
    + split; [discriminate|]. intros H. inversion H. congruence.
Qed.

(** With pairwise different keys, each entry is the record of its key. *)
Lemma lookup_upsert_all_NoDup es k w c :
  NoDup (map entry_key es) -> In (k, w, c) es ->
  lookup k (fold_left upsert es []) = Some {| weight := w; comment := c |}.
Proof.
  intros N I. rewrite lookup_upsert_all. cbn [lookup].
  induction es as [|[[k' w'] c'] es IH]; [destruct I|].
  cbn [map] in N. inversion N as [|? ? Nk Ne]; subst.
  cbn [max_weight first_comment].
  destruct I as [E|I].
  - inversion E; subst. destruct (key_eq_dec k k); [|contradiction].
    destruct (max_weight k es) as [m|] eqn:M; [|reflexivity].
    exfalso. apply Nk. apply max_weight_In. unfold entry_key in *. simpl.
    congruence.
  - destruct (key_eq_dec k k') as [->|D]; [|now apply IH].
    exfalso. apply Nk. unfold entry_key at 1. simpl.
    change k' with (entry_key (k', w, c)). now apply in_map.
Qed.

Lemma lookup_upsert_all_perm es es' k :
  NoDup (map entry_key es) -> Permutation es es' ->
  lookup k (fold_left upsert es []) = lookup k (fold_left upsert es' []).
Proof.
  intros N P.
  assert (N' : NoDup (map entry_key es')).
  { eapply Permutation_NoDup; [|exact N]. now apply Permutation_map. }
  destruct (in_dec key_eq_dec k (map entry_key es)) as [I|I].
  - apply in_map_iff in I. destruct I as [[[k0 w] c] [E I]].
    unfold entry_key in E. simpl in E. subst k0.
    rewrite (lookup_upsert_all_NoDup es k w c N I).
    symmetry. apply lookup_upsert_all_NoDup; auto.
    apply (Permutation_in _ P I).
  - assert (I' : ~ In k (map entry_key es')).
    { intros H. apply I. eapply Permutation_in; [|exact H].
      apply Permutation_map. now apply Permutation_sym. }
    rewrite <- keys_upsert_all_iff in I, I'.
    apply lookup_None_keys in I. apply lookup_None_keys in I'. congruence.
Qed.

Lemma NoDup_items t : NoDup (keys t) -> NoDup t.
Proof. apply NoDup_map_inv. Qed.

(** Tables with pairwise different keys and the same lookups are
    permutations of each other. *)
Lemma perm_of_lookup t t' :
  NoDup (keys t) -> NoDup (keys t') ->
  (forall k, lookup k t = lookup k t') -> Permutation t t'.
Proof.
  intros N N' L. apply NoDup_Permutation; auto using NoDup_items.
  intros [k v]. split; intros I.
  - apply lookup_In. rewrite <- L. now apply In_lookup.
  - apply lookup_In. rewrite L. now apply In_lookup.
Qed.

(** Normalizing does not see the order of the table. *)
Lemma normalize_of_perm t0 t0' t :
  NoDup (keys t0) -> Permutation t0 t0' ->
  normalize t0 = Ok t ->
  exists t', normalize t0' = Ok t' /\ Permutation t t'.
Proof.
  intros N0 P N.
  assert (Pk : Permutation (keys t0) (keys t0'))
    by (unfold keys; now apply Permutation_map).
  assert (N0' : NoDup (keys t0')) by (eapply Permutation_NoDup; eauto).
  pose proof (normalize_keys _ _ N) as K.
  apply normalize_Ok in N. destruct N as [C E].
  apply check_all_Ok in C. destruct C as [F Q].
  exists (fold_left demote (flat_map targets_of (keys t0')) t0').
  split.
  - unfold normalize. rewrite visit_all_check, check_all_pass; [reflexivity| |].
    + rewrite Forall_forall in *. intros k Hk. apply F.
      apply (Permutation_in _ (Permutation_sym Pk) Hk).
    + rewrite Forall_forall in *. intros k Hk. apply Q.
      apply (Permutation_in _ (Permutation_sym Pk) Hk).
  - apply perm_of_lookup.
    + now rewrite K.
    + now rewrite keys_demote_all.
    + intros k. subst t.
      assert (L0 : lookup k t0 = lookup k t0').
      { destruct (lookup k t0) as [v|] eqn:L.
        - symmetry. apply In_lookup; auto.
          apply (Permutation_in _ P). now apply lookup_In.
        - symmetry. apply lookup_None_keys. apply lookup_None_keys in L.
          intros I. apply L.
          apply (Permutation_in _ (Permutation_sym Pk) I). }
      destruct (in_dec key_eq_dec k (flat_map targets_of (keys t0))) as [I|I].
      * rewrite lookup_demote_all_in by assumption.
        rewrite lookup_demote_all_in, L0; [reflexivity|].
        apply (in_targets_perm (keys t0)); auto.
        intros x. apply Permutation_in. exact Pk.
      * rewrite lookup_demote_all_out by assumption.
        rewrite lookup_demote_all_out, L0; [reflexivity|].
        intros I'. apply I. apply (in_targets_perm (keys t0')); auto.
        intros x. apply Permutation_in. now apply Permutation_sym.
Qed.

(** X10, the order of the lines does not matter.  The output does not
    depend on the order of the lines of the region, as long as no key
    occurs on two of them (with duplicates the comment kept is that of
    the first). *)
Theorem line_order_irrelevant pre b region region' post es out :
  Forall (fun line => is_begin line = false) pre ->
  is_begin b = true ->
  Forall (fun line => is_end line = false) region ->
  starts_with_end post ->
  Permutation region region' ->
  parse_all region = Ok es ->
  NoDup (map entry_key es) ->
  improve_quick5 (pre ++ b :: region ++ post) = Finished out ->
  improve_quick5 (pre ++ b :: region' ++ post) = Finished out.
Proof.
  intros Fp Hb Fr He P Pa Ne.
  assert (Fr' : Forall (fun line => is_end line = false) region').
  { rewrite Forall_forall in *. intros l Hl. apply Fr.
    apply (Permutation_in _ (Permutation_sym P) Hl). }
  apply parse_all_Forall2 in Pa.
  destruct (Permutation_Forall2 P Pa) as [es' [Pe Pa']].
  apply parse_all_Forall2 in Pa. apply parse_all_Forall2 in Pa'.
  destruct (read_lines_regions pre b region post Fp Hb Fr He) as [rt E].
  destruct (read_lines_regions pre b region' post Fp Hb Fr' He) as [rt' E'].
  unfold improve_quick5.
  rewrite E, E', !read_table_lines_parse, Pa, Pa'. cbn [bind tbl head tail].
  set (t0 := fold_left upsert es []). set (t0' := fold_left upsert es' []).
  assert (N0 : NoDup (keys t0)) by (apply NoDup_upsert_all; constructor).
  assert (N0' : NoDup (keys t0')) by (apply NoDup_upsert_all; constructor).
  assert (P0 : Permutation t0 t0').
  { apply perm_of_lookup; auto. intros k.
    now apply lookup_upsert_all_perm. }
  destruct (normalize t0) as [t|] eqn:N; [|discriminate].
  destruct (normalize_of_perm t0 t0' t N0 P0 N) as [t' [N' Pt]].
  rewrite N'.
  destruct (report_variants t) as [[]|] eqn:V; [|discriminate].
  rewrite (report_variants_perm t t' (Permutation_sym Pt) V).
  destruct (sorted t) as [body|] eqn:S; [|discriminate].
  rewrite (sorted_of_perm t t' body); auto.
  rewrite (normalize_keys _ _ N). exact N0.
Qed.

(** ** Size of the output, and the Big5 helper *)

Lemma length_keys (t : table) : length (keys t) = length t.
Proof. unfold keys. apply length_map. Qed.

Lemma length_upsert t e : (length (upsert t e) <= S (length t))%nat.
Proof.
  rewrite <- (length_keys (upsert t e)), <- (length_keys t).
  destruct (keys_upsert t e) as [E|[_ E]]; rewrite E; [lia|].
  rewrite length_app. simpl. lia.
Qed.

Lemma length_upsert_all es : forall t,
  (length (fold_left upsert es t) <= length es + length t)%nat.
Proof.
  induction es as [|e es IH]; intros t; simpl; [lia|].
  specialize (IH (upsert t e)). pose proof (length_upsert t e). lia.
Qed.

Lemma parse_all_length region es :
  parse_all region = Ok es -> length es = length region.
Proof.
  intros H. apply parse_all_Forall2 in H.
  symmetry. now apply Forall2_length in H.
Qed.

(** X11, the output is no longer than the input.  The tool never writes
    more lines than it read: header and trailer are copied, the begin
    line is replaced by one line, and the body has one line per key of
    the region. *)
Theorem output_no_longer lines out :
  improve_quick5 lines = Finished out -> (length out <= length lines)%nat.
Proof.
  intros H. apply improve_quick5_Finished in H.
  destruct H as [st [t [body [R [N [_ [S ->]]]]]]].
  assert (Lb : length body = length (tbl st)).
  { rewrite (Permutation_length (sorted_perm _ _ S)).
    assert (K := normalize_keys _ _ N). apply (f_equal (@length key)) in K.
    unfold keys in K. now rewrite !length_map in K. }
  rewrite !length_app, length_map, Lb.
  destruct (cut_at_markers lines)
    as [F|[pre [b [region [post [E [Fp [Hb [Fr He]]]]]]]]].
  - rewrite (read_no_marker lines F) in R. inversion R; subst. simpl. lia.
  - subst lines.
    destruct (read_lines_regions pre b region post Fp Hb Fr He) as [rt E].
    rewrite E, read_table_lines_parse in R.
    destruct (parse_all region) as [es|] eqn:Pa; simpl in R; [|discriminate].
    inversion R; subst. simpl.
    pose proof (length_upsert_all es []) as L.
    rewrite (parse_all_length _ _ Pa) in L.
    rewrite !length_app. simpl. rewrite length_app. simpl in L. lia.
Qed.

(** X1, no half-written output.  Every run either finishes or raises
    before line 174 opens the output file: [sorted] at line 178 cannot
    raise, because the loop at line 126 has let only single characters
    through. *)
Theorem finished_or_nothing_written lines :
  (exists out, improve_quick5 lines = Finished out)
  \/ (exists e, improve_quick5 lines = Crashed e None).
Proof.
  unfold improve_quick5.
  destruct (read_lines reader_init lines) as [st|] eqn:R; [|eauto].
  destruct (normalize (tbl st)) as [t|] eqn:N; [|eauto].
  destruct (report_variants t) as [[]|]; [|eauto].
  destruct (sorted t) as [body|e0] eqn:S; [eauto|].
  exfalso. exact (output_never_partial_aux lines st t e0 R N S).
Qed.

(** X12, the fallback of [big5_code] is the highest code.  The promise
    of its docstring: what it returns for a phrase Big5 cannot encode is
    higher than what it returns for any phrase Big5 can encode, given
    that the codec produces no byte 0xFF (Big5 uses 0x00-0x7F and
    0x81-0xFE). *)
Theorem big5_code_unencodable_is_highest encode_big5 p q big5 :
  encode_big5 p = Some big5 ->
  Forall (fun byte => (byte < 255)%N) big5 ->
  encode_big5 q = None ->
  str_compare (big5_code encode_big5 p) (big5_code encode_big5 q) = Lt.
Proof.
  intros Ep F Eq. unfold big5_code. rewrite Ep, Eq.
  destruct F as [|x big5' Hx F]; [reflexivity|]. simpl.
  destruct (N.compare_spec x 255); [lia|reflexivity|lia].
Qed.

(** ** Exactly the well-formed files finish *)

Lemma parse_line_Ok_fields line k z cm :
  parse_line line = Ok (k, z, cm) ->
  exists w, fields line = Ok (fst k, snd k, w, cm) /\ py_int w = Some z.
Proof.
  unfold parse_line.
  destruct (fields line) as [[[[i c] w] cf]|]; simpl; [|discriminate].
  unfold int_of. destruct (py_int w) as [z'|] eqn:P; simpl; [|discriminate].
  intros [= <- <- <-]. exists w. auto.
Qed.

(** X13, exactly the well-formed files finish.  For a file cut at its
    markers, the run finishes exactly when every line of the region is
    well formed and the optional diagnostics let the run pass. *)
Theorem finishes_iff_well_formed pre b region post :
  Forall (fun line => is_begin line = false) pre ->
  is_begin b = true ->
  Forall (fun line => is_end line = false) region ->
  starts_with_end post ->
  ((exists out, improve_quick5 (pre ++ b :: region ++ post) = Finished out)
   <-> Forall well_formed region /\ diagnostics_pass region).
Proof.
  intros Fp Hb Fr He.
  destruct (read_lines_regions pre b region post Fp Hb Fr He) as [rt E].
  rewrite read_table_lines_parse in E.
  split.
  - intros [out H]. apply improve_quick5_Finished in H.
    destruct H as [st [t [body [R [N [V _]]]]]].
    rewrite E in R.
    destruct (parse_all region) as [es|] eqn:Pa; simpl in R; [|discriminate].
    inversion R; subst st; clear R. cbn [tbl] in N.
    pose proof (normalize_keys _ _ N) as K.
    apply normalize_Ok in N. destruct N as [C _].
    apply check_all_Ok in C. destruct C as [F Q].
    rewrite Forall_forall in F, Q.
    apply parse_all_Forall2 in Pa.
    assert (W : Forall (fun line => well_formed line /\ quiet line) region).
    { clear E V K Fr. revert F Q.
      assert (G : forall e, In e es ->
                  In (entry_key e) (keys (fold_left upsert es []))).
      { intros e He'. apply keys_upsert_all_iff. now apply in_map. }
      revert G. generalize (keys (fold_left upsert es [])) as ks.
      induction Pa as [|line [[k z] cm] region es Pl Pa IH]; intros ks G F Q;
        constructor.
      - destruct (parse_line_Ok_fields _ _ _ _ Pl) as [w [Fl Pw]].
        assert (Ik : In k ks) by (apply (G (k, z, cm)); now left).
        destruct (F k Ik) as [c Hc]. destruct k as [i ch]. simpl in *.
        subst ch. split.
        + exists i, c, w, cm. split; [assumption|congruence].
        + unfold quiet. destruct (fields_Ok _ _ _ _ _ Fl) as [-> _].
          now apply Q.
      - apply (IH ks); auto. intros e He'. apply G. now right. }
    split.
    + rewrite Forall_forall in *. intros l Hl. now apply W.
    + unfold diagnostics_pass, diagnostics_off.
      unfold report_variants in V.
      destruct (IMPORT_CHINESE_VARIANTS_SUCCESSFUL env); [right|now left].
      split.
      * intros ->. inversion Pa; subst es. simpl in K.
        apply keys_nil in K. subst t. discriminate V.
      * rewrite Forall_forall in *. intros l Hl. now apply W.
  - intros [W D].
    destruct (well_formed_parse_all region W) as [es [P [M Fs]]].
    rewrite P in E. simpl in E.
    assert (From : forall k, In k (keys (fold_left upsert es [])) ->
                             In k (map line_key region)).
    { intros k Hk. apply keys_upsert_all_from in Hk.
      destruct Hk as [[]|Hk]. now rewrite <- M. }
    apply (finishes_of_read _ _ E); simpl.
    + rewrite Forall_forall in *. auto.
    + rewrite Forall_forall. intros k Hk. apply From in Hk.
      destruct D as [Off|[_ Q]]; [now apply diagnostics_off_quiet|].
      apply in_map_iff in Hk. destruct Hk as [line [<- Hl]].
      rewrite Forall_forall in Q. now apply Q.
    + destruct D as [Off|[Ne _]]; [now left|right].
      destruct es as [|e es];
        [destruct region; [now contradiction Ne|discriminate M]|].
      simpl. intros Z.
      assert (I := In_keys_upsert_all es (upsert [] e) (fst (fst e))
                     (In_keys_upsert_self [] e)).
      rewrite Z in I. destruct I.
Qed.

(** ** The body is made of complete lines *)















(** ** Head and tail, from the text of the input to the text of the output *)

(** Without carriage returns the lines read are the pieces of the text. *)
Lemma readlines_from_concat text : forall cur,
  ~ In CR text -> concat (readlines_from cur text) = rev cur ++ text.
Proof.
  induction text as [|c rest IH]; intros cur N.
  - destruct cur as [|a cur]; [reflexivity|].
    cbn [readlines_from concat]. now rewrite !app_nil_r.
  - cbn [readlines_from].
    assert (Nr : ~ In CR rest) by (intros I; apply N; now right).
    destruct (N.eqb_spec c NL) as [->|D].
    + cbn [concat]. rewrite (IH [] Nr). cbn [rev app].
      now rewrite <- app_assoc.
    + destruct (N.eqb_spec c CR) as [->|D'].
      * exfalso. apply N. now left.
      * rewrite (IH (c :: cur) Nr). cbn [rev]. now rewrite <- app_assoc.
Qed.

Lemma readlines_concat text : ~ In CR text -> concat (readlines text) = text.
Proof. intros N. apply (readlines_from_concat text [] N). Qed.

(** On POSIX the text of the file is the strings written. *)
Lemma write_text_posix written :
  write_text posix_linesep written = concat written.
Proof.
  unfold write_text, posix_linesep.
  induction (concat written) as [|c l IH]; [reflexivity|].
  cbn [flat_map]. rewrite IH. now destruct (N.eqb_spec c NL) as [->|D].
Qed.

Lemma not_In_existsb (c : char) (s : str) :
  existsb (N.eqb c) s = false -> ~ In c s.
Proof.
  intros E I. assert (T : existsb (N.eqb c) s = true).
  { apply existsb_exists. exists c. split; [assumption|apply N.eqb_refl]. }
  congruence.
Qed.

(** C4 as amended, round trip of head and tail.  For an input file whose
    lines are cut at its markers: the text a run writes (on POSIX) is
    the header lines, the canonical begin line, the table body and the
    lines from the end marker on, in this order, each header and trailer
    line as the text-mode reader yields it; these lines are the very
    pieces of the input text when it holds no carriage return; and the
    run does write when every line of the region is well formed and the
    optional diagnostics let the run pass. *)
Theorem head_tail_round_trip_text text pre b region post :
  readlines text = pre ++ b :: region ++ post ->
  Forall (fun line => is_begin line = false) pre ->
  is_begin b = true ->
  Forall (fun line => is_end line = false) region ->
  starts_with_end post ->
  (forall out,
      improve_quick5 (readlines text) = Finished out ->
      exists body,
        write_text posix_linesep out
        = concat pre ++ BEGIN_TABLE_line
            ++ concat (map format_item body) ++ concat post)
  /\ (~ In CR text ->
      text = concat pre ++ b ++ concat region ++ concat post)
  /\ (Forall well_formed region -> diagnostics_pass region ->
      exists out, improve_quick5 (readlines text) = Finished out).
Proof.
  intros L Fp Hb Fr He. rewrite L.
  destruct (round_trip_of_lines pre b region post Fp Hb Fr He)
    as [Shape Runs].
  split; [|split].
  - intros out H. destruct (Shape out H) as [body ->]. exists body.
    rewrite write_text_posix, !concat_app. cbn [concat].
    now rewrite app_nil_r.
  - intros N. rewrite <- (readlines_concat text N), L.
    rewrite concat_app. cbn [concat]. now rewrite concat_app.
  - exact Runs.
Qed.

End Pipeline.

(** ** The properties on the sample inputs *)

Lemma x_demotion_witness :
  normalize env_plain sample_table = Ok sample_table_normalized
  /\ has_x_record sample_table [zhong]
  /\ over_alphabet (lit "a")
  /\ lookup (lit "a", [zhong]) sample_table_normalized
     = Some {| weight := 900; comment := [] |}
  /\ weight {| weight := 900; comment := [] |} = 900.
Proof.
  assert (N : normalize env_plain sample_table = Ok sample_table_normalized)
    by (vm_compute; reflexivity).
  assert (X : has_x_record sample_table [zhong]).
  { exists (lit "x"). split; [simpl; left; reflexivity|reflexivity]. }
  assert (A : over_alphabet (lit "a")).
  { split; [left; reflexivity|]. constructor; [|constructor].
    simpl. left. reflexivity. }
  assert (L : lookup (lit "a", [zhong]) sample_table_normalized
              = Some {| weight := 900; comment := [] |})
    by (vm_compute; reflexivity).
  repeat (split; [assumption|]).
  exact (x_demotion env_plain sample_table sample_table_normalized
           (lit "a") [zhong] {| weight := 900; comment := [] |} N X A L).
Defined.

Lemma non_target_preserved_witness :
  normalize env_plain sample_table = Ok sample_table_normalized
  /\ ~ has_x_record sample_table [zi]
  /\ lookup (lit "ab", [zi]) sample_table_normalized
     = lookup (lit "ab", [zi]) sample_table.
Proof.
  assert (N : normalize env_plain sample_table = Ok sample_table_normalized)
    by (vm_compute; reflexivity).
  assert (X : ~ has_x_record sample_table [zi]).
  { intros [input [I S]]. simpl in I.
    destruct I as [E|[E|[E|[]]]]; inversion E; subst; discriminate S. }
  repeat (split; [assumption|]).
  exact (non_target_preserved env_plain sample_table sample_table_normalized
           (lit "ab") [zi] N (or_introl X)).
Defined.

Lemma normalize_preserves_keys_witness :
  normalize env_plain sample_table = Ok sample_table_normalized
  /\ keys sample_table_normalized = keys sample_table.
Proof.
  assert (N : normalize env_plain sample_table = Ok sample_table_normalized)
    by (vm_compute; reflexivity).
  split; [exact N|].
  exact (normalize_preserves_keys env_plain sample_table
           sample_table_normalized N).
Defined.

Lemma merge_max_witness :
  match read_lines int_ascii reader_init sample with
  | Ok st =>
      exists es,
        parse_all int_ascii sample_region = Ok es
        /\ NoDup (keys (tbl st))
        /\ forall k, option_map weight (lookup k (tbl st)) = max_weight k es
  | Raise _ => False
  end.
Proof.
  destruct (read_lines int_ascii reader_init sample) as [st|e] eqn:R.
  - apply (merge_max int_ascii sample_pre sample_begin sample_region
             sample_post st).
    + repeat constructor.
    + reflexivity.
    + repeat constructor.
    + reflexivity.
    + exact R.
  - vm_compute in R. discriminate R.
Defined.

Lemma duplicate_keeps_first_comment_witness :
  match read_lines int_ascii reader_init sample with
  | Ok st =>
      exists es,
        parse_all int_ascii sample_region = Ok es
        /\ forall k,
            lookup k (tbl st) =
            match max_weight k es, first_comment k es with
            | Some w, Some c => Some {| weight := w; comment := c |}
            | _, _ => None
            end
  | Raise _ => False
  end.
Proof.
  destruct (read_lines int_ascii reader_init sample) as [st|e] eqn:R.
  - apply (duplicate_keeps_first_comment int_ascii sample_pre sample_begin
             sample_region sample_post st).
    + repeat constructor.
    + reflexivity.
    + repeat constructor.
    + reflexivity.
    + exact R.
  - vm_compute in R. discriminate R.
Defined.

Lemma body_sorted_witness :
  match improve_quick5 int_ascii env_plain sample with
  | Finished out =>
      exists st t body,
        read_lines int_ascii reader_init sample = Ok st
        /\ normalize env_plain (tbl st) = Ok t
        /\ out = head st ++ map format_item body ++ tail st
        /\ Permutation body t
        /\ StronglySorted item_lt body
        /\ sorted body = Ok body
  | Crashed _ _ => False
  end.
Proof.
  destruct (improve_quick5 int_ascii env_plain sample) as [e w|out] eqn:R.
  - vm_compute in R. discriminate R.
  - apply (body_sorted int_ascii env_plain sample out). exact R.
Defined.

Lemma malformed_line_is_fatal_witness :
  exists e, improve_quick5 int_ascii env_plain sample_bad = Crashed e None.
Proof.
  apply (malformed_line_is_fatal int_ascii env_plain sample_pre sample_begin
           sample_region sample_bad_line sample_post).
  - repeat constructor.
  - reflexivity.
  - repeat constructor.
  - reflexivity.
  - right. left. vm_compute. reflexivity.
Defined.

(** C10, a file without a begin marker.  With [chinese_variants]
    imported, the run on such a file reads [number_of_problems_with_chinese_variants]
    at line 172 before any assignment and ends there, the output file
    not opened. *)
Theorem no_marker_with_variants :
  improve_quick5 int_ascii env_variants [ln "### no table here"]
  = Crashed UnboundLocalError None.
Proof. reflexivity. Qed.

(** The same file with [chinese_variants] missing is copied. *)
Example no_marker_plain :
  improve_quick5 int_ascii env_plain [ln "### no table here"]
  = Finished [ln "### no table here"].
Proof. reflexivity. Qed.

(** The examples of the specification. *)
Example demoted_next_to_x :
  improve_quick5 int_ascii env_plain
    [ln "BEGIN_TABLE"; row "a" zhong "1000"; row "x" zhong "1000";
     ln "END_TABLE"]
  = Finished
      [ln "BEGIN_TABLE"; row "a" zhong "900"; row "x" zhong "1000";
       ln "END_TABLE"].
Proof. vm_compute. reflexivity. Qed.

Example untouched_without_x :
  improve_quick5 int_ascii env_plain
    [ln "BEGIN_TABLE"; row "ab" zi "500"; ln "END_TABLE"]
  = Finished [ln "BEGIN_TABLE"; row "ab" zi "500"; ln "END_TABLE"].
Proof. vm_compute. reflexivity. Qed.

Example duplicates_merged :
  improve_quick5 int_ascii env_plain
    [ln "BEGIN_TABLE"; row "q" jie "1000"; row "q" jie "800";
     ln "END_TABLE"]
  = Finished [ln "BEGIN_TABLE"; row "q" jie "1000"; ln "END_TABLE"].
Proof. vm_compute. reflexivity. Qed.

Example sample_output :
  improve_quick5 int_ascii env_plain sample
  = Finished
      [ ln "### header"; ln "BEGIN_TABLE";
        row "a" zhong "900"; row "ab" zi "500"; row "q" jie "1000";
        row "x" zhong "1000"; ln "END_TABLE"; ln "trailer" ].
Proof. vm_compute. reflexivity. Qed.

(** With [chinese_variants] imported and lookups that do not raise, the
    sample gives the same output. *)
Example sample_output_with_variants :
  improve_quick5 int_ascii env_variants sample
  = improve_quick5 int_ascii env_plain sample.
Proof. vm_compute. reflexivity. Qed.

(** The three kinds of malformed line. *)
Example malformed_runs :
  improve_quick5 int_ascii env_plain sample_bad = Crashed ValueError None
  /\ improve_quick5 int_ascii env_plain
       [ln "BEGIN_TABLE"; lit "a" ++ [TAB; zhong; zi; TAB] ++ ln "1000";
        ln "END_TABLE"]
     = Crashed TypeError None
  /\ improve_quick5 int_ascii env_plain
       [ln "BEGIN_TABLE"; lit "a" ++ [TAB; zhong; NL]; ln "END_TABLE"]
     = Crashed ValueError None.
Proof. repeat split; vm_compute; reflexivity. Qed.

Example int_ascii_examples :
  int_ascii (lit " -1_000 ") = Some (-1000)
  /\ int_ascii (lit "heavy") = None
  /\ int_ascii (lit "1__0") = None
  /\ int_ascii [] = None.
Proof. repeat split. Qed.

Example str_of_int_examples :
  str_of_int 900 = lit "900" /\ str_of_int 0 = lit "0"
  /\ str_of_int (-15) = lit "-15".
Proof. repeat split. Qed.

Example split_strip_examples :
  split TAB (lit "a" ++ [TAB] ++ lit "b" ++ [TAB; TAB] ++ lit "c")
  = [lit "a"; lit "b"; []; lit "c"]
  /\ strip (lit "  a b" ++ [TAB; NL]) = lit "a b"
  /\ split TAB [] = [[]].
Proof. repeat split. Qed.

(** ** The further properties on the sample inputs *)

Lemma finishes_iff_witness :
  exists st,
    read_lines int_ascii reader_init sample = Ok st
    /\ Forall (fun k : key => exists c, snd k = [c]) (keys (tbl st))
    /\ Forall (fun k : key => variants_diagnostics env_plain k = Ok tt)
         (keys (tbl st))
    /\ (diagnostics_off env_plain \/ tbl st <> []).
Proof.
  apply (proj1 (finishes_iff int_ascii env_plain sample)).
  eexists. vm_compute. reflexivity.
Defined.

Lemma crash_causes_witness :
  improve_quick5 int_ascii env_plain sample_bad = Crashed ValueError None
  /\ (read_lines int_ascii reader_init sample_bad = Raise ValueError
      \/ exists st, read_lines int_ascii reader_init sample_bad = Ok st).
Proof.
  assert (H : improve_quick5 int_ascii env_plain sample_bad
              = Crashed ValueError None) by (vm_compute; reflexivity).
  split; [exact H|].
  destruct (crash_causes int_ascii env_plain sample_bad ValueError None H)
    as [[_ R]|[st [R _]]]; [left; exact R|right; exists st; exact R].
Defined.

Lemma normalize_changes_weights_only_witness :
  normalize env_plain sample_table = Ok sample_table_normalized
  /\ Forall2 same_or_900 sample_table sample_table_normalized.
Proof.
  assert (N : normalize env_plain sample_table = Ok sample_table_normalized)
    by (vm_compute; reflexivity).
  split; [exact N|].
  exact (normalize_changes_weights_only env_plain sample_table
           sample_table_normalized N).
Defined.

Lemma written_records_witness :
  match improve_quick5 int_ascii env_plain sample with
  | Finished out =>
      exists es body,
        parse_all int_ascii sample_region = Ok es
        /\ out = sample_pre ++ [BEGIN_TABLE_line]
                   ++ map format_item body ++ sample_post
        /\ NoDup (keys body)
        /\ forall k v,
            In (k, v) body <->
            exists m c,
              max_weight k es = Some m /\ first_comment k es = Some c
              /\ comment v = c
              /\ ((demoted es k /\ weight v = 900)
                  \/ (~ demoted es k /\ weight v = m))
  | Crashed _ _ => False
  end.
Proof.
  destruct (improve_quick5 int_ascii env_plain sample) as [e w|out] eqn:R.
  - vm_compute in R. discriminate R.
  - apply (written_records int_ascii env_plain sample_pre sample_begin
             sample_region sample_post out).
    + repeat constructor.
    + reflexivity.
    + repeat constructor.
    + reflexivity.
    + exact R.
Defined.

Lemma body_depends_on_region_only_witness :
  match improve_quick5 int_ascii env_plain sample with
  | Finished out =>
      exists body,
        out = sample_pre ++ [BEGIN_TABLE_line] ++ body ++ sample_post
        /\ improve_quick5 int_ascii env_plain
             ([] ++ sample_begin_other :: sample_region ++ [])
           = Finished ([] ++ [BEGIN_TABLE_line] ++ body ++ [])
  | Crashed _ _ => False
  end.
Proof.
  destruct (improve_quick5 int_ascii env_plain sample) as [e w|out] eqn:R.
  - vm_compute in R. discriminate R.
  - apply (body_depends_on_region_only int_ascii env_plain
             sample_pre sample_begin sample_post
             [] sample_begin_other [] sample_region out).
    + repeat constructor.
    + reflexivity.
    + reflexivity.
    + constructor.
    + reflexivity.
    + exact I.
    + repeat constructor.
    + exact R.
Defined.

Lemma stored_items_clean_witness :
  match read_lines int_ascii reader_init sample with
  | Ok st => Forall clean (tbl st)
  | Raise _ => False
  end.
Proof.
  destruct (read_lines int_ascii reader_init sample) as [st|e] eqn:R.
  - exact (stored_items_clean int_ascii sample st R).
  - vm_compute in R. discriminate R.
Defined.

Lemma written_lines_read_back_witness :
  match improve_quick5 int_ascii env_plain sample with
  | Finished out =>
      exists st body,
        read_lines int_ascii reader_init sample = Ok st
        /\ out = head st ++ map format_item body ++ tail st
        /\ Forall reads_back body
  | Crashed _ _ => False
  end.
Proof.
  destruct (improve_quick5 int_ascii env_plain sample) as [e w|out] eqn:R.
  - vm_compute in R. discriminate R.
  - exact (written_lines_read_back int_ascii env_plain sample out R).
Defined.

Lemma output_is_fixed_point_witness :
  match improve_quick5 int_ascii env_plain sample with
  | Finished out => improve_quick5 int_ascii env_plain out = Finished out
  | Crashed _ _ => False
  end.
Proof.
  destruct (read_lines int_ascii reader_init sample) as [st|e] eqn:R;
    [|vm_compute in R; discriminate R].
  destruct (normalize env_plain (tbl st)) as [t|e] eqn:N.
  2:{ vm_compute in R. inversion R; subst st. vm_compute in N.
      discriminate N. }
  destruct (improve_quick5 int_ascii env_plain sample) as [e w|out] eqn:H;
    [vm_compute in H; discriminate H|].
  apply (output_is_fixed_point int_ascii env_plain sample st t out R N H).
  - vm_compute in R. inversion R; subst st. vm_compute in N.
    inversion N; subst t. repeat constructor.
  - vm_compute in R. inversion R; subst st. vm_compute in N.
    inversion N; subst t. repeat constructor.
Defined.

Lemma line_order_irrelevant_witness :
  match improve_quick5 int_ascii env_plain
          (sample_pre ++ sample_begin :: sample_region_plain ++ sample_post)
  with
  | Finished out =>
      improve_quick5 int_ascii env_plain
        (sample_pre ++ sample_begin :: sample_region_moved ++ sample_post)
      = Finished out
  | Crashed _ _ => False
  end.
Proof.
  destruct (improve_quick5 int_ascii env_plain
              (sample_pre ++ sample_begin :: sample_region_plain
                 ++ sample_post)) as [e w|out] eqn:R.
  - vm_compute in R. discriminate R.
  - destruct (parse_all int_ascii sample_region_plain) as [es|e] eqn:P;
      [|vm_compute in P; discriminate P].
    apply (line_order_irrelevant int_ascii env_plain sample_pre sample_begin
             sample_region_plain sample_region_moved sample_post es out).
    + repeat constructor.
    + reflexivity.
    + repeat constructor.
    + reflexivity.
    + apply Permutation_sym.
      apply (Permutation_cons_append
               [row "x" zhong "1000"; row "a" zhong "1000"]
               (row "ab" zi "500")).
    + exact P.
    + vm_compute in P. inversion P; subst es. cbn [map entry_key fst].
      repeat (constructor; [simpl; intuition discriminate|]). constructor.
    + exact R.
Defined.

Lemma output_no_longer_witness :
  match improve_quick5 int_ascii env_plain sample with
  | Finished out => (length out <= length sample)%nat
  | Crashed _ _ => False
  end.
Proof.
  destruct (improve_quick5 int_ascii env_plain sample) as [e w|out] eqn:R.
  - vm_compute in R. discriminate R.
  - exact (output_no_longer int_ascii env_plain sample out R).
Defined.

Lemma big5_code_unencodable_is_highest_witness :
  str_compare (big5_code encode_ascii (lit "abc"))
    (big5_code encode_ascii [zhong]) = Lt.
Proof.
  apply (big5_code_unencodable_is_highest encode_ascii (lit "abc") [zhong]
           (lit "abc")).
  - reflexivity.
  - repeat constructor.
  - reflexivity.
Defined.

Lemma finishes_iff_well_formed_witness :
  Forall (well_formed int_ascii) sample_region
  /\ diagnostics_pass env_plain sample_region.
Proof.
  destruct (finishes_iff_well_formed int_ascii env_plain sample_pre
              sample_begin sample_region sample_post) as [To _].
  - repeat constructor.
  - reflexivity.
  - repeat constructor.
  - reflexivity.
  - apply To. eexists. vm_compute. reflexivity.
Defined.


(** ** The claim on head and tail, as first stated and as amended *)

(** C4 as stated fails in two ways.  A header line that ends in CRLF is
    in the input file and not in the output file, which has LF line
    endings throughout.  And with [chinese_variants] imported and a
    lookup that raises, the run on a well-formed file writes nothing. *)
Lemma head_tail_not_byte_identical :
  (exists out,
      improve_quick5 int_ascii env_plain (readlines crlf_file) = Finished out
      /\ (exists p q, crlf_file = p ++ crlf_header_line ++ q)
      /\ ~ (exists p q,
              write_text posix_linesep out = p ++ crlf_header_line ++ q))
  /\ (Forall (well_formed int_ascii) sample_region
      /\ improve_quick5 int_ascii env_lookup_fails sample
         = Crashed LookupFailed None).
Proof.
  split.
  - eexists. split; [vm_compute; reflexivity|]. split.
    + exists [], (lit "BEGIN_TABLE" ++ [CR; NL] ++ lit "END_TABLE" ++ [CR; NL]).
      reflexivity.
    + intros [p [q E]].
      assert (I : In CR (p ++ crlf_header_line ++ q)).
      { apply in_or_app. right. apply in_or_app. left.
        unfold crlf_header_line. apply in_or_app. right. now left. }
      rewrite <- E in I. revert I. apply not_In_existsb.
      vm_compute. reflexivity.
  - split; [|vm_compute; reflexivity].
    repeat (constructor;
            [do 4 eexists; split; [reflexivity|vm_compute; discriminate]|]).
    constructor.
Defined.

Lemma head_tail_round_trip_text_witness :
  (forall out,
      improve_quick5 int_ascii env_plain (readlines sample_text)
      = Finished out ->
      exists body,
        write_text posix_linesep out
        = concat sample_pre ++ BEGIN_TABLE_line
            ++ concat (map format_item body) ++ concat sample_post)
  /\ sample_text
     = concat sample_pre ++ sample_begin ++ concat sample_region
         ++ concat sample_post
  /\ exists out,
       improve_quick5 int_ascii env_plain (readlines sample_text)
       = Finished out.
Proof.
  destruct (head_tail_round_trip_text int_ascii env_plain sample_text
              sample_pre sample_begin sample_region sample_post)
    as [Shape [Pieces Runs]].
  - vm_compute. reflexivity.
  - repeat constructor.
  - reflexivity.
  - repeat constructor.
  - reflexivity.
  - split; [exact Shape|]. split.
    + apply Pieces. apply not_In_existsb. vm_compute. reflexivity.
    + apply Runs; [|left; reflexivity].
      repeat (constructor;
              [do 4 eexists; split; [reflexivity|vm_compute; discriminate]|]).
      constructor.
Defined.

(** Universal newlines: the three line endings, and a last line without
    one. *)
Example readlines_examples :
  readlines (lit "a" ++ [CR; NL] ++ lit "b" ++ [CR] ++ lit "c" ++ [NL]
               ++ lit "d")
  = [ln "a"; ln "b"; ln "c"; lit "d"]
  /\ readlines [] = []
  /\ readlines crlf_file = [ln "### header"; ln "BEGIN_TABLE"; ln "END_TABLE"]
  /\ readlines sample_text = sample.
Proof. repeat split; vm_compute; reflexivity. Qed.
